(** * vrename: the table reconciler, the table parser and the move/copy
    drivers of [vrename.py], embedded as Rocq functions.

    Python exceptions become the [Raise] branch of a [result]; the
    [OrderedDict] of [_confront_two_tables] becomes an association list
    kept in insertion order; strings are lists of Unicode code points. *)

From Stdlib Require Import String Ascii.
From Stdlib Require Import List ListDec Bool Arith NArith ZArith Lia.
From Stdlib Require Import Permutation.
Import ListNotations.

Set Implicit Arguments.

(** ** Results of fallible code *)

Inductive result (E A : Type) : Type :=
| Ok (a : A)
| Raise (e : E).

Arguments Ok {E A} a.
Arguments Raise {E A} e.

Definition bind {E A B : Type} (m : result E A) (k : A -> result E B)
  : result E B :=
  match m with
  | Ok a => k a
  | Raise e => Raise e
  end.

(** A result that, when it is an error, is one that [ok] admits. *)
Definition raises_only {E A : Type} (ok : E -> bool) (res : result E A)
  : Prop :=
  match res with
  | Ok _ => True
  | Raise e => ok e = true
  end.

(** ** [collections.OrderedDict], as far as the reconciler uses it *)

Module OrderedDict.
Section Dict.
Variables K V : Type.
Variable K_eq_dec : forall x y : K, {x = y} + {x <> y}.

Definition t := list (K * V).

Definition empty : t := [].

(** [d[k]], [None] standing for the [KeyError]; also decides [k in d]. *)
Fixpoint get (k : K) (d : t) : option V :=
  match d with
  | [] => None
  | (k', v) :: d' => if K_eq_dec k k' then Some v else get k d'
  end.

(** [d[k] = v]: a new key goes last, a present key keeps its place. *)
Fixpoint set (k : K) (v : V) (d : t) : t :=
  match d with
  | [] => [(k, v)]
  | (k', v') :: d' =>
      if K_eq_dec k k' then (k, v) :: d' else (k', v') :: set k v d'
  end.

Definition items (d : t) : list (K * V) := d.

Definition keys (d : t) : list K := map fst d.
End Dict.
End OrderedDict.

(** ** The reconciler *)

Section Reconciler.
Variables Tag Val : Type.
Variable tag_eq_dec : forall x y : Tag, {x = y} + {x <> y}.

(** The four [KeyError] subclasses with their fields. *)
Inductive KeyError : Type :=
| DuplicateTagError (tag : Tag) (left_values : list Val)
| NoLeftValueError (tag : Tag) (right_value : Val)
| MultipleRightValueError (tag : Tag) (left_value : Val)
                          (right_values : list Val)
| NoRightValueError (tag : Tag) (left_value : Val).

Definition table := list (Tag * Val).

(** The dictionary [d]: tag to [(left_value, rights)]. *)
Definition grouping := OrderedDict.t Tag (Val * list Val).

(** First loop of [_confront_two_tables]. *)
Fixpoint insert_lefts (left_table : table) (d : grouping)
  : result KeyError grouping :=
  match left_table with
  | [] => Ok d
  | (tag, left_value) :: rest =>
      match OrderedDict.get tag_eq_dec tag d with
      | Some (first, _) =>
          Raise (DuplicateTagError tag [first; left_value])
      | None =>
          insert_lefts rest
            (OrderedDict.set tag_eq_dec tag (left_value, []) d)
      end
  end.

(** Second loop: [d[tag][1].append(right_value)] grows the list held
    under [tag] in place; a missing key is turned into
    [NoLeftValueError]. *)
Fixpoint append_rights (right_table : table) (d : grouping)
  : result KeyError grouping :=
  match right_table with
  | [] => Ok d
  | (tag, right_value) :: rest =>
      match OrderedDict.get tag_eq_dec tag d with
      | Some (left_value, rights) =>
          append_rights rest
            (OrderedDict.set tag_eq_dec tag
               (left_value, rights ++ [right_value]) d)
      | None => Raise (NoLeftValueError tag right_value)
      end
  end.

Definition _confront_two_tables (left_table right_table : table)
  : result KeyError (list (Tag * (Val * list Val))) :=
  bind (insert_lefts left_table (OrderedDict.empty Tag (Val * list Val)))
    (fun d =>
       bind (append_rights right_table d)
         (fun d' => Ok (OrderedDict.items d'))).

Definition confront_two_tables (left_table right_table : table)
  : result KeyError (list (Val * list Val)) :=
  bind (_confront_two_tables left_table right_table)
    (fun its => Ok (map (fun it => (fst (snd it), snd (snd it))) its)).

(** The loop of [pairwise_two_tables]; [pairs] is the list built so
    far and [None] is Python's [None]. *)
Fixpoint pair_loop (allow_no_right : bool)
    (its : list (Tag * (Val * list Val)))
    (pairs : list (Val * option Val))
  : result KeyError (list (Val * option Val)) :=
  match its with
  | [] => Ok pairs
  | (tag, (left_value, rights)) :: rest =>
      if 1 <? length rights
      then Raise (MultipleRightValueError tag left_value rights)
      else
        match rights with
        | [] =>
            if allow_no_right
            then pair_loop allow_no_right rest
                   (pairs ++ [(left_value, None)])
            else Raise (NoRightValueError tag left_value)
        | r0 :: _ =>
            pair_loop allow_no_right rest
              (pairs ++ [(left_value, Some r0)])
        end
  end.

Definition pairwise_two_tables (left_table right_table : table)
    (allow_no_right : bool)
  : result KeyError (list (Val * option Val)) :=
  bind (_confront_two_tables left_table right_table)
    (fun its => pair_loop allow_no_right its []).

(** *** Vocabulary of the statements *)

Definition tags (tb : table) : list Tag := map fst tb.

Definition has_tag (t : Tag) (e : Tag * Val) : bool :=
  if tag_eq_dec (fst e) t then true else false.

(** The values of the entries of a table that bear [t], in table
    order. *)
Definition values_of (t : Tag) (tb : table) : list Val :=
  map snd (filter (has_tag t) tb).

(** How many entries of a table bear [t]. *)
Definition occurrences (t : Tag) (tb : table) : nat :=
  count_occ tag_eq_dec (tags tb) t.

(** The dictionary after the first loop on a duplicate-free table. *)
Definition fresh_entry (e : Tag * Val) : Tag * (Val * list Val) :=
  (fst e, (snd e, [])).

(** Each left entry with the right values of its tag. *)
Definition grouped (left_table right_table : table)
  : list (Tag * (Val * list Val)) :=
  map (fun e => (fst e, (snd e, values_of (fst e) right_table)))
    left_table.

(** The pair the loop of [pairwise_two_tables] appends for an entry
    it accepts. *)
Definition pair_of (it : Tag * (Val * list Val)) : Val * option Val :=
  (fst (snd it), hd_error (snd (snd it))).

(** The entries that loop steps over without raising. *)
Definition passes (allow_no_right : bool) (it : Tag * (Val * list Val))
  : Prop :=
  length (snd (snd it)) = 1
  \/ (snd (snd it) = [] /\ allow_no_right = true).

(** Which error a [KeyError] is. *)
Definition is_DuplicateTag (e : KeyError) : bool :=
  match e with DuplicateTagError _ _ => true | _ => false end.

Definition is_NoLeft (e : KeyError) : bool :=
  match e with NoLeftValueError _ _ => true | _ => false end.

Definition is_MultipleRight (e : KeyError) : bool :=
  match e with MultipleRightValueError _ _ _ => true | _ => false end.

Definition is_NoRight (e : KeyError) : bool :=
  match e with NoRightValueError _ _ => true | _ => false end.

End Reconciler.

Arguments DuplicateTagError {Tag Val} tag left_values.
Arguments NoLeftValueError {Tag Val} tag right_value.
Arguments MultipleRightValueError {Tag Val} tag left_value right_values.
Arguments NoRightValueError {Tag Val} tag left_value.

(** ** Python strings *)

(** A [str] is a sequence of code points. *)
Definition char := N.
Definition pystr := list char.

Definition pystr_eq_dec : forall x y : pystr, {x = y} + {x <> y} :=
  list_eq_dec N.eq_dec.

(** A literal of the source, written in ASCII. *)
Definition lit (s : string) : pystr :=
  map N_of_ascii (list_ascii_of_string s).

Definition nl : char := 10%N.

(** [str.isspace] on one code point: the characters that [str.strip()]
    removes and on which [str.split(None)] splits. *)
Definition isspace (c : char) : bool :=
  ((9 <=? c) && (c <=? 13) || (28 <=? c) && (c <=? 32)
   || (c =? 133) || (c =? 160) || (c =? 5760)
   || (8192 <=? c) && (c <=? 8202)
   || (c =? 8232) || (c =? 8233) || (c =? 8239) || (c =? 8287)
   || (c =? 12288))%N.

Fixpoint drop_while (p : char -> bool) (s : pystr) : pystr :=
  match s with
  | [] => []
  | c :: s' => if p c then drop_while p s' else s
  end.

Fixpoint take_while (p : char -> bool) (s : pystr) : pystr :=
  match s with
  | [] => []
  | c :: s' => if p c then c :: take_while p s' else []
  end.

Definition lstrip (s : pystr) : pystr := drop_while isspace s.
Definition rstrip (s : pystr) : pystr := rev (drop_while isspace (rev s)).

(** [s.strip()] *)
Definition strip (s : pystr) : pystr := rstrip (lstrip s).

Definition nonspace (c : char) : bool := negb (isspace c).

(** [s.split(None, 1)]: skip leading whitespace, cut the first word,
    skip the whitespace after it and keep the rest to the end of the
    string untouched; no field is ever empty. *)
Definition split_None_1 (s : pystr) : list pystr :=
  match drop_while isspace s with
  | [] => []
  | w =>
      match drop_while isspace (drop_while nonspace w) with
      | [] => [take_while nonspace w]
      | r => [take_while nonspace w; r]
      end
  end.

(** ** Exceptions and effects of the drivers *)

Inductive exc : Type :=
| ValueError (got : nat)
    (** the unpacking [tag, path = ...] of a list of [got] fields, [got]
        other than 2 *)
| OSError (msg : pystr)
    (** an [EnvironmentError]; [msg] is [str(err)] *)
| KeyErr (e : KeyError pystr pystr)
| SystemExit (code : Z).

(** [except Exception] catches all of them but [SystemExit]. *)
Definition is_Exception (e : exc) : bool :=
  match e with
  | SystemExit _ => false
  | _ => true
  end.

Definition EXIT_SUCCESS : Z := 0.
Definition EXIT_FAIL : Z := 1.
Definition EXIT_UNEXPECTED_FAIL : Z := 2.

(** What the operating system does for the drivers.  The world [W] is
    whatever the files live in; an operation that fails gives
    [str(err)] of its [OSError].

    The interface covers the calls that return or that raise an
    [OSError].  Two ways in which a call raises something else lie
    outside it, and the statements on runs that reach such a call carry
    them as hypotheses.  A table file whose bytes do not decode in the
    file system encoding raises [UnicodeDecodeError] while it is read:
    [open_lines path w = Ok lines] stands for a file that was opened and
    decoded, with [lines] what the iteration over it gives.  A path that
    holds NUL makes [os.remove], [os.renames] and [shutil.copyfile] raise
    [ValueError: embedded null byte]: the paths handed to these three
    are taken without NUL, [no_null] below. *)
Class OS (W : Type) : Type := {
  (** [open(path)] in text mode and the iteration of its lines, each
      with its line end; [file_lines] below gives these lines for the
      text of a file *)
  open_lines : pystr -> W -> result pystr (list pystr);
  os_remove : pystr -> W -> result pystr unit * W;
  os_renames : pystr -> pystr -> W -> result pystr unit * W;
  shutil_copyfile : pystr -> pystr -> W -> result pystr unit * W;
  os_path_join : pystr -> pystr -> pystr;
  os_path_abspath : pystr -> pystr
}.

(** One write to [sys.stderr]. *)
Inductive err_item : Type :=
| ErrLine (msg : pystr)       (** [print(msg, file=sys.stderr)] *)
| Traceback (e : exc).        (** [traceback.print_exc(file=sys.stderr)] *)

Record State (W : Type) : Type := mkState {
  world : W;
  stdout : list pystr;
  stderr : list err_item
}.

Definition M (W A : Type) : Type := State W -> result exc A * State W.

Definition ret {W A} (a : A) : M W A := fun st => (Ok a, st).

Definition raise {W A} (e : exc) : M W A := fun st => (Raise e, st).

Definition mbind {W A B} (m : M W A) (k : A -> M W B) : M W B :=
  fun st =>
    match m st with
    | (Ok a, st') => k a st'
    | (Raise e, st') => (Raise e, st')
    end.

Declare Scope prog_scope.
Delimit Scope prog_scope with prog.
Notation "x <- m ;; k" := (mbind m (fun x => k))
  (at level 61, m at next level, right associativity) : prog_scope.
Notation "m ;; k" := (mbind m (fun _ => k))
  (at level 61, right associativity) : prog_scope.
Local Open Scope prog_scope.

Definition print_stdout {W} (msg : pystr) : M W unit :=
  fun st => (Ok tt, mkState (world st) (stdout st ++ [msg]) (stderr st)).

Definition print_stderr {W} (msg : pystr) : M W unit :=
  fun st =>
    (Ok tt, mkState (world st) (stdout st) (stderr st ++ [ErrLine msg])).

Definition print_exc {W} (e : exc) : M W unit :=
  fun st =>
    (Ok tt, mkState (world st) (stdout st) (stderr st ++ [Traceback e])).

(** A call into the operating system that may change the world, on
    paths without NUL: it returns or raises an [OSError]. *)
Definition os_call {W} (op : W -> result pystr unit * W) : M W unit :=
  fun st =>
    match op (world st) with
    | (Ok _, w') => (Ok tt, mkState w' (stdout st) (stderr st))
    | (Raise msg, w') =>
        (Raise (OSError msg), mkState w' (stdout st) (stderr st))
    end.

Fixpoint for_each {W A} (xs : list A) (body : A -> M W unit) : M W unit :=
  match xs with
  | [] => ret tt
  | x :: rest => body x ;; for_each rest body
  end.

(** [sys.exit(code)] *)
Definition sys_exit {W A} (code : Z) : M W A := raise (SystemExit code).

Definition print_error_and_exit {W A} (message : pystr) : M W A :=
  print_stderr message ;; sys_exit EXIT_FAIL.

(** [with capture_os_error(): body] *)
Definition capture_os_error {W A} (body : M W A) : M W A :=
  fun st =>
    match body st with
    | (Raise (OSError msg), st') => print_error_and_exit msg st'
    | r => r
    end.

(** ** The table parser and the drivers *)

Section Drivers.
Context {W : Type} {os : OS W}.

Record DirStats : Type := mkDirStats {
  dir_path : pystr;
  old_path : pystr;
  new_path : pystr
}.

Definition get_dir_stats (name : pystr) : DirStats :=
  let dir_path := os_path_join (lit "/tmp/vrename/") name in
  mkDirStats
    (os_path_abspath dir_path)
    (os_path_abspath (os_path_join dir_path (lit "old.txt")))
    (os_path_abspath (os_path_join dir_path (lit "new.txt"))).

(** [tag, path = line.strip().split(None, 1)] *)
Definition parse_line (line : pystr) : result exc (pystr * pystr) :=
  match split_None_1 (strip line) with
  | [tag; path] => Ok (tag, path)
  | fields => Raise (ValueError (length fields))
  end.

(** The body of the generator over the lines of the open file. *)
Fixpoint parse_lines (lines : list pystr)
  : result exc (list (pystr * pystr)) :=
  match lines with
  | [] => Ok []
  | line :: rest =>
      bind (parse_line line)
        (fun entry =>
           bind (parse_lines rest) (fun entries => Ok (entry :: entries)))
  end.

(** [list(_parse_old_new_file(path))] *)
Definition _parse_old_new_file (path : pystr)
  : M W (list (pystr * pystr)) :=
  fun st =>
    match open_lines path (world st) with
    | Raise msg => (Raise (OSError msg), st)
    | Ok lines =>
        match parse_lines lines with
        | Ok entries => (Ok entries, st)
        | Raise e => (Raise e, st)
        end
    end.

Definition parse_old_new_file (dirstats : DirStats)
  : M W (list (pystr * pystr) * list (pystr * pystr)) :=
  old <- _parse_old_new_file (old_path dirstats) ;;
  new <- _parse_old_new_file (new_path dirstats) ;;
  ret (old, new).

(** [format_paths_message], the same in both drivers. *)
Definition format_paths_message (text_path tag : pystr)
    (file_paths : list pystr) : pystr :=
  let msg := [nl] ++ lit "In " ++ text_path in
  match file_paths with
  | [] => msg ++ [nl] ++ lit "  (Not Found)"
  | _ =>
      fold_left
        (fun msg p => msg ++ [nl] ++ lit "  " ++ tag ++ lit " " ++ p)
        file_paths msg
  end.

Record Args : Type := mkArgs {
  name : pystr;
  dry_run : bool
}.

Definition move_process (old_path : pystr) (new_path : option pystr)
  : M W unit :=
  match new_path with
  | None => os_call (os_remove old_path)
  | Some new_path => os_call (os_renames old_path new_path)
  end.

Definition move_message (old_path : pystr) (new_path : option pystr)
  : pystr :=
  match new_path with
  | None => lit "Delete " ++ old_path
  | Some new_path =>
      lit "Renamed " ++ old_path ++ lit " to " ++ new_path
  end.

Definition main_move (args : Args) : M W unit :=
  let d := get_dir_stats (name args) in
  tables <- capture_os_error (parse_old_new_file d) ;;
  let old_path_tags := fst tables in
  let new_path_tags := snd tables in
  old_new_pairs <-
    match pairwise_two_tables pystr_eq_dec old_path_tags new_path_tags
            true with
    | Ok pairs => ret pairs
    | Raise (DuplicateTagError tag left_values) =>
        print_error_and_exit
          (lit "Multiple source paths with same tag found"
           ++ format_paths_message (old_path d) tag left_values)
    | Raise (NoLeftValueError tag right_value) =>
        print_error_and_exit
          (lit "No corresponding source path found"
           ++ format_paths_message (old_path d) tag []
           ++ format_paths_message (new_path d) tag [right_value])
    | Raise (MultipleRightValueError tag left_value right_values) =>
        print_error_and_exit
          (lit "Multiple corresponding destination paths found"
           ++ format_paths_message (old_path d) tag [left_value]
           ++ format_paths_message (new_path d) tag right_values)
    | Raise e => raise (KeyErr e)
    end ;;
  for_each old_new_pairs
    (fun pair =>
       capture_os_error
         (print_stdout (move_message (fst pair) (snd pair)) ;;
          if dry_run args then ret tt
          else move_process (fst pair) (snd pair))).

Definition copy_message (old_path new_path : pystr) : pystr :=
  lit "Copied " ++ old_path ++ lit " to " ++ new_path.

Definition main_copy (args : Args) : M W unit :=
  let d := get_dir_stats (name args) in
  tables <- capture_os_error (parse_old_new_file d) ;;
  let old_path_tags := fst tables in
  let new_path_tags := snd tables in
  old_new_pairs <-
    match confront_two_tables pystr_eq_dec old_path_tags new_path_tags
    with
    | Ok pairs => ret pairs
    | Raise (DuplicateTagError tag left_values) =>
        print_error_and_exit
          (lit "Multiple source paths with same tag found"
           ++ format_paths_message (old_path d) tag left_values)
    | Raise (NoLeftValueError tag right_value) =>
        print_error_and_exit
          (lit "No corresponding source path found"
           ++ format_paths_message (old_path d) tag []
           ++ format_paths_message (new_path d) tag [right_value])
    | Raise e => raise (KeyErr e)
    end ;;
  for_each old_new_pairs
    (fun pair =>
       for_each (snd pair)
         (fun new_path =>
            capture_os_error
              (print_stdout (copy_message (fst pair) new_path) ;;
               if dry_run args then ret tt
               else os_call (shutil_copyfile (fst pair) new_path)))).

(** The two subcommands that reconcile; [func] of the parsed
    arguments. *)
Inductive command : Type := Move | Copy.

Definition run_command (c : command) : Args -> M W unit :=
  match c with
  | Move => main_move
  | Copy => main_copy
  end.

(** [try: body except Exception: handler] *)
Definition try_except_Exception {A} (body : M W A)
    (handler : exc -> M W A) : M W A :=
  fun st =>
    match body st with
    | (Raise e, st') =>
        if is_Exception e then handler e st' else (Raise e, st')
    | r => r
    end.

(** [main], from the parsed arguments on: [args.func(args)]. *)
Definition main (c : command) (args : Args) : M W unit :=
  try_except_Exception (run_command c args)
    (fun e => print_exc e ;; sys_exit EXIT_UNEXPECTED_FAIL).

(** What a run of the process leaves behind. *)
Record Outcome : Type := mkOutcome {
  exit_code : Z;
  final : State W
}.

(** The interpreter running [main()] from a world [w]: a normal return
    exits with 0, [SystemExit] with its code, and an exception that
    nothing caught is printed and exits with 1. *)
Definition run_main (c : command) (args : Args) (w : W) : Outcome :=
  match main c args (mkState w [] []) with
  | (Ok _, st) => mkOutcome 0 st
  | (Raise (SystemExit code), st) => mkOutcome code st
  | (Raise e, st) =>
      mkOutcome 1
        (mkState (world st) (stdout st) (stderr st ++ [Traceback e]))
  end.

End Drivers.

(** *** Vocabulary of the parser statements *)

(** The fields [line.strip().split(None, 1)] finds on a line. *)
Definition fields (line : pystr) : list pystr := split_None_1 (strip line).

(** A line that cannot be split into two whitespace-separated fields. *)
Definition malformed (line : pystr) : Prop := length (fields line) <> 2.

(** A line written as a tag, a run of whitespace and the rest of the
    line: the value with whatever follows it, line end included. *)
Record written_line : Type := mkWritten {
  w_tag : pystr;
  w_gap : pystr;
  w_rest : pystr
}.

Definition line_text (l : written_line) : pystr :=
  w_tag l ++ w_gap l ++ w_rest l.

Definition well_written (l : written_line) : Prop :=
  w_tag l <> [] /\ forallb nonspace (w_tag l) = true
  /\ w_gap l <> [] /\ forallb isspace (w_gap l) = true
  /\ exists c rest, w_rest l = c :: rest /\ isspace c = false.

(** ** A small file system in memory, for running the drivers on
    examples: a file is the list of its lines, paths are POSIX paths
    already absolute and normalised. *)

Module MemFS.

Definition world := list (pystr * list pystr).

Fixpoint lookup (p : pystr) (w : world) : option (list pystr) :=
  match w with
  | [] => None
  | (q, ls) :: w' => if pystr_eq_dec p q then Some ls else lookup p w'
  end.

Definition delete (p : pystr) (w : world) : world :=
  filter (fun f => if pystr_eq_dec (fst f) p then false else true) w.

Definition no_such_file (p : pystr) : pystr :=
  lit "[Errno 2] No such file or directory: '" ++ p ++ lit "'".

Definition mem_open (p : pystr) (w : world)
  : result pystr (list pystr) :=
  match lookup p w with
  | Some ls => Ok ls
  | None => Raise (no_such_file p)
  end.

Definition mem_remove (p : pystr) (w : world)
  : result pystr unit * world :=
  match lookup p w with
  | Some _ => (Ok tt, delete p w)
  | None => (Raise (no_such_file p), w)
  end.

Definition mem_renames (p q : pystr) (w : world)
  : result pystr unit * world :=
  match lookup p w with
  | Some ls => (Ok tt, (q, ls) :: delete q (delete p w))
  | None => (Raise (no_such_file p), w)
  end.

Definition mem_copyfile (p q : pystr) (w : world)
  : result pystr unit * world :=
  match lookup p w with
  | Some ls => (Ok tt, (q, ls) :: delete q w)
  | None => (Raise (no_such_file p), w)
  end.

Definition slash : char := 47%N.

(** [posixpath.join] of two components *)
Definition join (a b : pystr) : pystr :=
  match b with
  | c :: _ =>
      if (c =? slash)%N then b
      else
        match rev a with
        | [] => b
        | z :: _ => if (z =? slash)%N then a ++ b else a ++ [slash] ++ b
        end
  | [] =>
      match rev a with
      | [] => b
      | z :: _ => if (z =? slash)%N then a else a ++ [slash]
      end
  end.

#[export] Instance mem_os : OS world := {
  open_lines := mem_open;
  os_remove := mem_remove;
  os_renames := mem_renames;
  shutil_copyfile := mem_copyfile;
  os_path_join := join;
  os_path_abspath := fun p => p
}.

(** The session ["default"] with the given table files. *)
Definition session (old_lines new_lines : list pystr) : world :=
  [ (lit "/tmp/vrename/default/old.txt", old_lines);
    (lit "/tmp/vrename/default/new.txt", new_lines) ].

Definition default_args (dry : bool) : Args :=
  mkArgs (lit "default") dry.

End MemFS.

(** Which exception an [exc] is. *)
Definition is_ValueError (e : exc) : bool :=
  match e with ValueError _ => true | _ => false end.

Definition is_OSError (e : exc) : bool :=
  match e with OSError _ => true | _ => false end.

(** [sys.exit(EXIT_FAIL)] *)
Definition is_exit_fail (e : exc) : bool :=
  match e with SystemExit code => (code =? EXIT_FAIL)%Z | _ => false end.

(** ** The tables of the doctests, and a few more *)

Module Doctest.

Definition left3 : table string string :=
  [("tag1", "L1"); ("tag2", "L2"); ("tag3", "L3")]%string.

Definition left2 : table string string :=
  [("tag1", "v"); ("tag2", "v")]%string.

Definition left_twice : table string string :=
  [("tag1", "L1"); ("tag1", "L1-B")]%string.

Definition left_thrice : table string string :=
  [("tag1", "L1"); ("tag1", "L1-B"); ("tag1", "L1-C")]%string.

Definition right_fan : table string string :=
  [("tag1", "R1"); ("tag1", "R1-B"); ("tag3", "R3")]%string.

Definition right_perm : table string string :=
  [("tag1", "R1"); ("tag3", "R3"); ("tag2", "R2")]%string.

Definition right_short : table string string :=
  [("tag1", "R1"); ("tag3", "R3")]%string.

Definition right_multi : table string string :=
  [("tag1", "R1"); ("tag3", "R3"); ("tag2", "R2"); ("tag1", "R1-B")]%string.

Definition right_late_fan : table string string :=
  [("tag2", "R2"); ("tag2", "R2-B")]%string.

Definition right_orphan : table string string :=
  [("tag3", "missing-left")]%string.

Definition right_orphan_fan : table string string :=
  [("tag1", "R1"); ("tag1", "R1-B"); ("tag9", "R9")]%string.

End Doctest.

(** ** The editor command *)

(** [a or b] for operands that are [None] or a [str]: [a] when it is a
    string that is not empty, else [b]. *)
Definition py_or (a b : option pystr) : option pystr :=
  match a with
  | Some (_ :: _) => a
  | _ => b
  end.

(** [which_editor]; [getenv] is [os.getenv], [None] for a variable that
    is not set. *)
Definition which_editor (getenv : pystr -> option pystr) : pystr :=
  let editor := py_or (getenv (lit "EDITOR")) (getenv (lit "VISUAL")) in
  match editor with
  | Some (c :: s) => c :: s
  | _ => lit "vi"
  end.

(** ** The tag generator *)

(** The generator [iter_random_tags] and the [zip] that consumes it.
    [draws] are the strings that the successive evaluations of
    [''.join(random.choice(charset) for _ in range(tag_length))] give, as
    far as they are known; when they are used up the loop is still
    drawing, which is [None].  The step before them, which computes
    [tag_length] and raises when there is no item, is in
    [random_tagging] below. *)
Section RandomTags.
Variable A : Type.

(** One [next()] on the generator: draw until a tag is not in [tags],
    add it and yield it.  Gives the tag, the set afterwards and the
    draws left. *)
Fixpoint next_random_tag (tags draws : list pystr)
  : option (pystr * list pystr * list pystr) :=
  match draws with
  | [] => None
  | t :: rest =>
      if in_dec pystr_eq_dec t tags
      then next_random_tag tags rest
      else Some (t, t :: tags, rest)
  end.

(** [zip(iter_random_tags(), items)] run to its end: each round takes a
    tag first and an item second, and stops when the items are used
    up. *)
Fixpoint zip_random_tags (items : list A) (tags draws : list pystr)
  : option (list (pystr * A)) :=
  match next_random_tag tags draws with
  | None => None
  | Some (t, tags', rest) =>
      match items with
      | [] => Some []
      | item :: items' =>
          match zip_random_tags items' tags' rest with
          | Some pairs => Some ((t, item) :: pairs)
          | None => None
          end
      end
  end.

(** The draws that the generator yields when it starts with [tags]:
    those that are neither in [tags] nor drawn before. *)
Fixpoint fresh_draws (tags draws : list pystr) : list pystr :=
  match draws with
  | [] => []
  | t :: rest =>
      if in_dec pystr_eq_dec t tags
      then fresh_draws tags rest
      else t :: fresh_draws (t :: tags) rest
  end.

End RandomTags.

(** [math.log(0, K)] raises [ValueError: math domain error]. *)
Inductive tagging_error : Type := MathDomainError.

(** [random_tagging(items, MIN_TAG_LENGTH, TAG_CHARSET)], with the
    result of its [zip] run to the end.  The length of a tag, computed
    in floating point from [math.log(len(items), len(charset))], only
    shapes the draws; but with no item the logarithm raises, when
    [random_tagging] is called and before anything is drawn. *)
Definition random_tagging (A : Type) (items : list A) (draws : list pystr)
  : result tagging_error (option (list (pystr * A))) :=
  match items with
  | [] => Raise MathDomainError
  | _ => Ok (zip_random_tags items [] draws)
  end.

(** ** The lines of a fresh table *)

(** The line that [print(tag, path, file=fp)] writes in [main_start]. *)
Definition table_line (tag path : pystr) : pystr :=
  tag ++ lit " " ++ path ++ [nl].

(** A string that is not empty and holds no whitespace. *)
Definition is_word (s : pystr) : bool :=
  match s with
  | [] => false
  | _ => forallb nonspace s
  end.

(** A string that is not empty and neither starts nor ends with
    whitespace. *)
Definition trimmed (s : pystr) : bool :=
  match s with
  | [] => false
  | c :: _ => nonspace c && nonspace (last s c)
  end.

(** ** Text files read back *)






(** ** Operations applied one after the other *)

Section Batch.
Context {W : Type} {os : OS W}.





End Batch.

(** ** Vocabulary of the driver statements *)

(** A program that leaves the world as it finds it, whatever it prints
    and however it ends. *)
Definition keeps_world {W A : Type} (m : M W A) : Prop :=
  forall st, world (snd (m st)) = world st.

(** The lines [main_move] prints for the pairs it was given, in order. *)
Definition move_plan (pairs : list (pystr * option pystr)) : list pystr :=
  map (fun pair => move_message (fst pair) (snd pair)) pairs.

(** The lines [main_copy] prints for the entries it was given: for each
    entry in order, one line per right value in order. *)
Definition copy_plan (entries : list (pystr * list pystr)) : list pystr :=
  flat_map (fun entry => map (copy_message (fst entry)) (snd entry)) entries.

(** ** A sample session on the in-memory file system *)

Module Sample.

(** Two files tagged; in the new table the first is given another path
    and the line of the second is deleted. *)
Definition old_lines : list pystr :=
  [lit "t1 /a" ++ [nl]; lit "t2 /b" ++ [nl]].

Definition new_lines : list pystr := [lit "t1 /c" ++ [nl]].

Definition old_table : table pystr pystr :=
  [(lit "t1", lit "/a"); (lit "t2", lit "/b")].

Definition new_table : table pystr pystr := [(lit "t1", lit "/c")].

(** The session with its two table files, and nothing else: the files
    [/a] and [/b] themselves are not there. *)
Definition world : MemFS.world := MemFS.session old_lines new_lines.

(** The same with the tagged files in place. *)
Definition world_with_files : MemFS.world :=
  world ++ [(lit "/a", [lit "A"]); (lit "/b", [lit "B"])].

(** A new table in which the tag of the first line was mistyped. *)
Definition world_orphan : MemFS.world :=
  MemFS.session old_lines [lit "tX /c" ++ [nl]].

(** An old table in which a tag comes twice. *)
Definition world_twice : MemFS.world :=
  MemFS.session [lit "t1 /a" ++ [nl]; lit "t1 /b" ++ [nl]] new_lines.

End Sample.

(** * Properties *)

(** ** The ordered dictionary *)

Section DictFacts.
Variables K V : Type.
Variable K_eq_dec : forall x y : K, {x = y} + {x <> y}.

Local Abbreviation get := (OrderedDict.get K_eq_dec).
Local Abbreviation set := (OrderedDict.set K_eq_dec).
Local Abbreviation keys := (@OrderedDict.keys K V).

Lemma get_None_iff (k : K) (d : OrderedDict.t K V) :
  get k d = None <-> ~ In k (keys d).
Proof.
  induction d as [|[k' v] d IH]; simpl.
  - tauto.
  - destruct (K_eq_dec k k') as [->|Hne].
    + split; [discriminate | intros H; exfalso; apply H; now left].
    + rewrite IH. split.
      * intros H [Heq|Hin]; [congruence | tauto].
      * intros H Hin. apply H. now right.
Qed.

Lemma get_Some_In (k : K) (v : V) (d : OrderedDict.t K V) :
  get k d = Some v -> In (k, v) d.
Proof.
  induction d as [|[k' v'] d IH]; simpl; [discriminate|].
  destruct (K_eq_dec k k') as [->|Hne].
  - intros [= ->]. now left.
  - intros H. right. now apply IH.
Qed.

Lemma get_In_keys (k : K) (d : OrderedDict.t K V) :
  In k (keys d) -> exists v, get k d = Some v.
Proof.
  intros Hin. destruct (get k d) as [v|] eqn:E.
  - now exists v.
  - apply get_None_iff in E. contradiction.
Qed.

Lemma set_fresh (k : K) (v : V) (d : OrderedDict.t K V) :
  get k d = None -> set k v d = d ++ [(k, v)].
Proof.
  induction d as [|[k' v'] d IH]; simpl; [reflexivity|].
  destruct (K_eq_dec k k'); [discriminate|].
  intros H. now rewrite IH.
Qed.

(** Replacing the value under a present key rewrites that one entry
    where it stands. *)
Lemma set_update (f : V -> V) (k : K) (x : V) (d : OrderedDict.t K V) :
  NoDup (keys d) -> get k d = Some x ->
  set k (f x) d
  = map (fun e => if K_eq_dec (fst e) k then (fst e, f (snd e)) else e) d.
Proof.
  induction d as [|[k' v'] d IH]; simpl; [discriminate|].
  intros Hnd Hget. apply NoDup_cons_iff in Hnd as [Hnotin Hnd].
  destruct (K_eq_dec k k') as [->|Hne].
  - injection Hget as ->.
    destruct (K_eq_dec k' k') as [_|Hc]; [|now contradiction Hc].
    f_equal. symmetry.
    rewrite <- (map_id d) at 2. apply map_ext_in.
    intros [k2 v2] Hin. simpl.
    destruct (K_eq_dec k2 k') as [->|_]; [|reflexivity].
    exfalso. apply Hnotin. change k' with (fst (k', v2)).
    now apply in_map.
  - destruct (K_eq_dec k' k) as [Heq|_]; [congruence|].
    f_equal. now apply IH.
Qed.

Lemma get_of_In (k : K) (v : V) (d : OrderedDict.t K V) :
  NoDup (keys d) -> In (k, v) d -> get k d = Some v.
Proof.
  induction d as [|[k' v'] d IH]; simpl; [tauto|].
  intros Hnd [Heq|Hin].
  - injection Heq as -> ->.
    destruct (K_eq_dec k k); [reflexivity | contradiction].
  - apply NoDup_cons_iff in Hnd as [Hnotin Hnd].
    destruct (K_eq_dec k k') as [->|Hne].
    + exfalso. apply Hnotin. change k' with (fst (k', v)).
      now apply in_map.
    + now apply IH.
Qed.
End DictFacts.

(** ** The grouping of [_confront_two_tables] *)

Section GroupingFacts.
Variables Tag Val : Type.
Variable tag_eq_dec : forall x y : Tag, {x = y} + {x <> y}.

Local Abbreviation insert_lefts := (insert_lefts (Val:=Val) tag_eq_dec).
Local Abbreviation append_rights := (append_rights (Val:=Val) tag_eq_dec).
Local Abbreviation values_of := (values_of (Val:=Val) tag_eq_dec).
Local Abbreviation occurrences := (occurrences (Val:=Val) tag_eq_dec).
Local Abbreviation grouped := (grouped (Val:=Val) tag_eq_dec).
Local Abbreviation keys := (@OrderedDict.keys Tag (Val * list Val)).

Lemma keys_fresh (l : table Tag Val) : keys (map (@fresh_entry _ _) l) = tags l.
Proof.
  unfold OrderedDict.keys, tags. rewrite map_map. reflexivity.
Qed.

Lemma keys_grouped (l r : table Tag Val) : keys (grouped l r) = tags l.
Proof.
  unfold OrderedDict.keys, grouped, tags. rewrite map_map. reflexivity.
Qed.

Lemma values_of_cons_eq (t : Tag) (v : Val) (r : table Tag Val) :
  values_of t ((t, v) :: r) = v :: values_of t r.
Proof.
  unfold values_of, has_tag. simpl.
  destruct (tag_eq_dec t t); [reflexivity | contradiction].
Qed.

Lemma values_of_cons_neq (t t' : Tag) (v : Val) (r : table Tag Val) :
  t' <> t -> values_of t ((t', v) :: r) = values_of t r.
Proof.
  intros Hne. unfold values_of, has_tag. simpl.
  destruct (tag_eq_dec t' t); [contradiction | reflexivity].
Qed.

Lemma length_values_of (t : Tag) (r : table Tag Val) :
  length (values_of t r) = occurrences t r.
Proof.
  unfold occurrences, tags.
  induction r as [|[t' v] r IH]; [reflexivity|].
  simpl map. destruct (tag_eq_dec t' t) as [->|Hne].
  - rewrite values_of_cons_eq, count_occ_cons_eq by reflexivity.
    simpl. now rewrite IH.
  - rewrite values_of_cons_neq, count_occ_cons_neq by assumption.
    exact IH.
Qed.

Lemma values_of_In (t : Tag) (v : Val) (r : table Tag Val) :
  In v (values_of t r) <-> In (t, v) r.
Proof.
  unfold values_of. rewrite in_map_iff. split.
  - intros [[t' v'] [Hv Hin]]. simpl in Hv. subst v'.
    apply filter_In in Hin as [Hin Ht]. unfold has_tag in Ht. simpl in Ht.
    destruct (tag_eq_dec t' t); [now subst | discriminate].
  - intros Hin. exists (t, v). split; [reflexivity|].
    apply filter_In. split; [assumption|]. unfold has_tag. simpl.
    destruct (tag_eq_dec t t); [reflexivity | contradiction].
Qed.

(** The first loop on a table without repeated tags. *)
Lemma insert_lefts_ok (l : table Tag Val) (d : grouping Tag Val) :
  NoDup (keys d ++ tags l) ->
  insert_lefts l d = Ok (d ++ map (@fresh_entry _ _) l).
Proof.
  revert d. induction l as [|[t v] l IH]; intros d Hnd; simpl.
  - now rewrite app_nil_r.
  - simpl in Hnd. pose proof (NoDup_remove_2 _ _ _ Hnd) as Hfresh.
    assert (Hget : OrderedDict.get tag_eq_dec t d = None).
    { apply get_None_iff. intros Hin. apply Hfresh.
      apply in_app_iff. now left. }
    rewrite Hget, set_fresh by assumption.
    rewrite IH.
    + now rewrite <- app_assoc.
    + unfold OrderedDict.keys in *. rewrite map_app, <- app_assoc. exact Hnd.
Qed.

Lemma insert_lefts_app (pre rest : table Tag Val) (d : grouping Tag Val) :
  insert_lefts (pre ++ rest) d = bind (insert_lefts pre d) (insert_lefts rest).
Proof.
  revert d. induction pre as [|[t v] pre IH]; intros d; simpl.
  - reflexivity.
  - destruct (OrderedDict.get tag_eq_dec t d) as [[first rs]|].
    + reflexivity.
    + apply IH.
Qed.

(** The first loop stops at the second entry of the first tag to
    come twice. *)
Lemma insert_lefts_dup (p1 p2 post : table Tag Val) (t : Tag) (v1 v2 : Val) :
  NoDup (tags (p1 ++ (t, v1) :: p2)) ->
  insert_lefts (p1 ++ (t, v1) :: p2 ++ (t, v2) :: post)
    (OrderedDict.empty Tag (Val * list Val))
  = Raise (DuplicateTagError t [v1; v2]).
Proof.
  intros Hnd.
  replace (p1 ++ (t, v1) :: p2 ++ (t, v2) :: post)
    with ((p1 ++ (t, v1) :: p2) ++ (t, v2) :: post)
    by (now rewrite <- app_assoc).
  rewrite insert_lefts_app, insert_lefts_ok by exact Hnd.
  simpl.
  rewrite (get_of_In tag_eq_dec t (v1, [])).
  - reflexivity.
  - rewrite keys_fresh. exact Hnd.
  - apply in_map_iff. exists (t, v1). split; [reflexivity|].
    apply in_elt.
Qed.

Lemma first_repeat (l : table Tag Val) :
  ~ NoDup (tags l) ->
  exists p1 t v1 p2 v2 post,
    l = p1 ++ (t, v1) :: p2 ++ (t, v2) :: post
    /\ NoDup (tags (p1 ++ (t, v1) :: p2)).
Proof.
  induction l as [|[t v2] l IH] using rev_ind; intros Hdup.
  - exfalso. apply Hdup. constructor.
  - destruct (ListDec.NoDup_dec tag_eq_dec (tags l)) as [Hnd|Hnd].
    + assert (Hin : In t (tags l)).
      { destruct (in_dec tag_eq_dec t (tags l)) as [Hin|Hnotin];
          [assumption|].
        exfalso. apply Hdup. unfold tags. rewrite map_app. simpl.
        apply NoDup_app; [exact Hnd | repeat constructor; intros [] |].
        intros a Ha [<-|[]]. contradiction. }
      apply in_map_iff in Hin as [[t' v1] [Ht Hin]]. simpl in Ht. subst t'.
      apply in_split in Hin as [p1 [p2 ->]].
      exists p1, t, v1, p2, v2, []. split; [|exact Hnd].
      now rewrite <- app_assoc.
    + destruct (IH Hnd) as (p1 & t' & v1 & p2 & v2' & post & -> & Hpre).
      exists p1, t', v1, p2, v2', (post ++ [(t, v2)]). split; [|exact Hpre].
      rewrite <- !app_assoc. simpl. rewrite <- app_assoc. reflexivity.
Qed.

Lemma keys_map_snd (g : Tag * (Val * list Val) -> Val * list Val)
    (d : grouping Tag Val) :
  keys (map (fun e => (fst e, g e)) d) = keys d.
Proof.
  unfold OrderedDict.keys. rewrite map_map. reflexivity.
Qed.

Lemma keys_map_if (t : Tag) (g : Val * list Val -> Val * list Val)
    (d : grouping Tag Val) :
  keys (map (fun e => if tag_eq_dec (fst e) t then (fst e, g (snd e)) else e)
          d)
  = keys d.
Proof.
  unfold OrderedDict.keys. rewrite map_map. apply map_ext.
  intros e. now destruct (tag_eq_dec (fst e) t).
Qed.

(** The second loop when every right tag is a key: each entry gains
    the right values of its tag, in table order, and stays in place. *)
Lemma append_rights_ok (r : table Tag Val) (d : grouping Tag Val) :
  NoDup (keys d) -> incl (tags r) (keys d) ->
  append_rights r d
  = Ok (map (fun e => (fst e, (fst (snd e),
                               snd (snd e) ++ values_of (fst e) r))) d).
Proof.
  revert d. induction r as [|[t rv] r IH]; intros d Hnd Hincl; simpl.
  - f_equal. rewrite <- (map_id d) at 1. apply map_ext.
    intros [k [lv rs]]. simpl. now rewrite app_nil_r.
  - destruct (get_In_keys tag_eq_dec t d) as [[lv rs] Hget].
    { apply Hincl. now left. }
    rewrite Hget.
    pose (g := fun x : Val * list Val => (fst x, snd x ++ [rv])).
    assert (Hset : OrderedDict.set tag_eq_dec t (lv, rs ++ [rv]) d
                   = map (fun e => if tag_eq_dec (fst e) t
                                   then (fst e, g (snd e)) else e) d)
      by exact (set_update tag_eq_dec g t d Hnd Hget).
    rewrite Hset. clear Hset.
    rewrite IH.
    + f_equal. rewrite map_map. apply map_ext.
      intros [k [lv' rs']]. unfold g. simpl.
      destruct (tag_eq_dec k t) as [->|Hne]; simpl.
      * now rewrite values_of_cons_eq, <- app_assoc.
      * rewrite values_of_cons_neq; [reflexivity | congruence].
    + now rewrite keys_map_if.
    + rewrite keys_map_if. intros a Ha. apply Hincl. now right.
Qed.

Lemma append_rights_app (pre rest : table Tag Val) (d : grouping Tag Val) :
  append_rights (pre ++ rest) d
  = bind (append_rights pre d) (append_rights rest).
Proof.
  revert d. induction pre as [|[t v] pre IH]; intros d; simpl.
  - reflexivity.
  - destruct (OrderedDict.get tag_eq_dec t d) as [[lv rs]|].
    + apply IH.
    + reflexivity.
Qed.

(** The second loop stops at the first right entry whose tag is no
    key. *)
Lemma append_rights_orphan (pre post : table Tag Val) (t : Tag) (rv : Val)
    (d : grouping Tag Val) :
  NoDup (keys d) -> incl (tags pre) (keys d) -> ~ In t (keys d) ->
  append_rights (pre ++ (t, rv) :: post) d = Raise (NoLeftValueError t rv).
Proof.
  intros Hnd Hincl Hnotin.
  rewrite append_rights_app, append_rights_ok by assumption.
  simpl.
  replace (OrderedDict.get tag_eq_dec t _) with (@None (Val * list Val)).
  - reflexivity.
  - symmetry. apply get_None_iff.
    now rewrite (keys_map_snd
                   (fun e => (fst (snd e),
                              snd (snd e) ++ values_of (fst e) pre))).
Qed.

Lemma first_orphan (l r : table Tag Val) :
  (exists e, In e r /\ ~ In (fst e) (tags l)) ->
  exists pre t rv post,
    r = pre ++ (t, rv) :: post
    /\ ~ In t (tags l) /\ incl (tags pre) (tags l).
Proof.
  induction r as [|[t rv] r IH]; intros [e [Hin Hout]].
  - destruct Hin.
  - destruct (in_dec tag_eq_dec t (tags l)) as [Ht|Ht].
    + destruct IH as (pre & t' & rv' & post & -> & Hout' & Hpre).
      { exists e. split; [|assumption].
        destruct Hin as [<-|Hin]; [contradiction | assumption]. }
      exists ((t, rv) :: pre), t', rv', post.
      split; [reflexivity|]. split; [assumption|].
      intros a [<-|Ha]; [assumption | now apply Hpre].
    + exists [], t, rv, r. split; [reflexivity|]. split; [assumption|].
      intros a [].
Qed.

Lemma confront_raw_ok (l r : table Tag Val) :
  NoDup (tags l) -> incl (tags r) (tags l) ->
  _confront_two_tables tag_eq_dec l r = Ok (grouped l r).
Proof.
  intros Hnd Hincl. unfold _confront_two_tables.
  rewrite insert_lefts_ok by exact Hnd. simpl.
  rewrite append_rights_ok.
  - simpl. unfold OrderedDict.items, grouped.
    now rewrite map_map.
  - now rewrite keys_fresh.
  - now rewrite keys_fresh.
Qed.

Lemma confront_raw_dup (p1 p2 post r : table Tag Val) (t : Tag)
    (v1 v2 : Val) :
  NoDup (tags (p1 ++ (t, v1) :: p2)) ->
  _confront_two_tables tag_eq_dec (p1 ++ (t, v1) :: p2 ++ (t, v2) :: post) r
  = Raise (DuplicateTagError t [v1; v2]).
Proof.
  intros Hnd. unfold _confront_two_tables.
  now rewrite insert_lefts_dup.
Qed.

Lemma confront_raw_orphan (l pre post : table Tag Val) (t : Tag) (rv : Val) :
  NoDup (tags l) -> incl (tags pre) (tags l) -> ~ In t (tags l) ->
  _confront_two_tables tag_eq_dec l (pre ++ (t, rv) :: post)
  = Raise (NoLeftValueError t rv).
Proof.
  intros Hnd Hincl Hout. unfold _confront_two_tables.
  rewrite insert_lefts_ok by exact Hnd. simpl.
  rewrite append_rights_orphan; rewrite ?keys_fresh; auto.
Qed.

(** *** The loop of [pairwise_two_tables] *)

Lemma pair_loop_app (allow : bool)
    (pre rest : list (Tag * (Val * list Val)))
    (acc : list (Val * option Val)) :
  Forall (passes allow) pre ->
  pair_loop allow (pre ++ rest) acc
  = pair_loop allow rest (acc ++ map (@pair_of _ _) pre).
Proof.
  revert acc. induction pre as [|[t [lv rs]] pre IH]; intros acc Hall; simpl.
  - now rewrite app_nil_r.
  - apply Forall_cons_iff in Hall as [Hpass Hall].
    unfold passes in Hpass. simpl in Hpass.
    destruct rs as [|r0 [|r1 rs]]; simpl.
    + destruct Hpass as [Hlen|[_ ->]]; [discriminate|].
      rewrite IH by assumption. now rewrite <- app_assoc.
    + rewrite IH by assumption. now rewrite <- app_assoc.
    + destruct Hpass as [Hlen|[Hnil _]]; discriminate.
Qed.

Lemma pair_loop_ok (allow : bool) (its : list (Tag * (Val * list Val))) :
  Forall (passes allow) its ->
  pair_loop allow its [] = Ok (map (@pair_of _ _) its).
Proof.
  intros Hall.
  rewrite <- (app_nil_r its) at 1.
  now rewrite pair_loop_app.
Qed.

Lemma first_such (A : Type) (P : A -> bool) (l : list A) :
  (exists x, In x l /\ P x = true) ->
  exists pre x post,
    l = pre ++ x :: post /\ P x = true
    /\ Forall (fun y => P y = false) pre.
Proof.
  induction l as [|a l IH]; intros [x [Hin Hx]].
  - destruct Hin.
  - destruct (P a) eqn:Ha.
    + exists [], a, l. repeat split; [assumption | constructor].
    + destruct IH as (pre & y & post & -> & Hy & Hpre).
      { exists x. split; [|assumption].
        destruct Hin as [<-|Hin]; [congruence | assumption]. }
      exists (a :: pre), y, post. repeat split; [assumption|].
      now constructor.
Qed.

Lemma grouped_app (pre post r : table Tag Val) (t : Tag) (v : Val) :
  grouped (pre ++ (t, v) :: post) r
  = grouped pre r ++ (t, (v, values_of t r)) :: grouped post r.
Proof.
  unfold grouped. now rewrite map_app.
Qed.

Lemma grouped_passes (allow : bool) (l r : table Tag Val) :
  Forall (fun e => occurrences (fst e) r = 1
                   \/ (occurrences (fst e) r = 0 /\ allow = true)) l ->
  Forall (passes allow) (grouped l r).
Proof.
  intros Hall. unfold grouped. apply Forall_map.
  eapply Forall_impl; [|exact Hall].
  intros [t v] H. unfold passes. simpl in *.
  rewrite <- length_values_of in H.
  destruct H as [H|[H ->]]; [now left | right].
  split; [|reflexivity]. now apply length_zero_iff_nil.
Qed.

Lemma pair_of_grouped (l r : table Tag Val) :
  map (@pair_of _ _) (grouped l r)
  = map (fun e => (snd e, hd_error (values_of (fst e) r))) l.
Proof.
  unfold grouped. now rewrite map_map.
Qed.

(** [pairwise_two_tables] on well-matched tables, up to a left entry
    before which every entry is accepted. *)
Lemma pairwise_upto (allow : bool) (pre post r : table Tag Val)
    (t : Tag) (v : Val) :
  NoDup (tags (pre ++ (t, v) :: post)) ->
  incl (tags r) (tags (pre ++ (t, v) :: post)) ->
  Forall (fun e => occurrences (fst e) r = 1
                   \/ (occurrences (fst e) r = 0 /\ allow = true)) pre ->
  pairwise_two_tables tag_eq_dec (pre ++ (t, v) :: post) r allow
  = pair_loop allow ((t, (v, values_of t r)) :: grouped post r)
      (map (fun e => (snd e, hd_error (values_of (fst e) r))) pre).
Proof.
  intros Hnd Hincl Hpre. unfold pairwise_two_tables.
  rewrite confront_raw_ok by assumption. simpl.
  rewrite grouped_app, pair_loop_app by now apply grouped_passes.
  now rewrite pair_of_grouped.
Qed.

Lemma pairwise_all (allow : bool) (l r : table Tag Val) :
  NoDup (tags l) -> incl (tags r) (tags l) ->
  Forall (fun e => occurrences (fst e) r = 1
                   \/ (occurrences (fst e) r = 0 /\ allow = true)) l ->
  pairwise_two_tables tag_eq_dec l r allow
  = Ok (map (fun e => (snd e, hd_error (values_of (fst e) r))) l).
Proof.
  intros Hnd Hincl Hall. unfold pairwise_two_tables.
  rewrite confront_raw_ok by assumption. simpl.
  rewrite pair_loop_ok by now apply grouped_passes.
  now rewrite pair_of_grouped.
Qed.

Lemma pairwise_stops_multiple (allow : bool) (pre post r : table Tag Val)
    (t : Tag) (v : Val) :
  NoDup (tags (pre ++ (t, v) :: post)) ->
  incl (tags r) (tags (pre ++ (t, v) :: post)) ->
  Forall (fun e => occurrences (fst e) r = 1
                   \/ (occurrences (fst e) r = 0 /\ allow = true)) pre ->
  2 <= occurrences t r ->
  pairwise_two_tables tag_eq_dec (pre ++ (t, v) :: post) r allow
  = Raise (MultipleRightValueError t v (values_of t r)).
Proof.
  intros Hnd Hincl Hpre Hocc.
  rewrite pairwise_upto by assumption. simpl.
  rewrite length_values_of.
  destruct (1 <? occurrences t r) eqn:E; [reflexivity|].
  apply Nat.ltb_ge in E. lia.
Qed.

Lemma pairwise_stops_no_right (pre post r : table Tag Val)
    (t : Tag) (v : Val) :
  NoDup (tags (pre ++ (t, v) :: post)) ->
  incl (tags r) (tags (pre ++ (t, v) :: post)) ->
  Forall (fun e => occurrences (fst e) r = 1) pre ->
  occurrences t r = 0 ->
  pairwise_two_tables tag_eq_dec (pre ++ (t, v) :: post) r false
  = Raise (NoRightValueError t v).
Proof.
  intros Hnd Hincl Hpre Hocc.
  rewrite pairwise_upto; try assumption.
  - simpl. rewrite <- length_values_of in Hocc.
    apply length_zero_iff_nil in Hocc. now rewrite Hocc.
  - eapply Forall_impl; [|exact Hpre]. intros e He. now left.
Qed.

Lemma pairwise_dup (allow : bool) (p1 p2 post r : table Tag Val) (t : Tag)
    (v1 v2 : Val) :
  NoDup (tags (p1 ++ (t, v1) :: p2)) ->
  pairwise_two_tables tag_eq_dec (p1 ++ (t, v1) :: p2 ++ (t, v2) :: post) r
    allow
  = Raise (DuplicateTagError t [v1; v2]).
Proof.
  intros Hnd. unfold pairwise_two_tables.
  now rewrite confront_raw_dup.
Qed.

Lemma pairwise_orphan (allow : bool) (l pre post : table Tag Val) (t : Tag)
    (rv : Val) :
  NoDup (tags l) -> incl (tags pre) (tags l) -> ~ In t (tags l) ->
  pairwise_two_tables tag_eq_dec l (pre ++ (t, rv) :: post) allow
  = Raise (NoLeftValueError t rv).
Proof.
  intros Hnd Hincl Hout. unfold pairwise_two_tables.
  now rewrite confront_raw_orphan.
Qed.

Lemma values_of_app (t : Tag) (a b : table Tag Val) :
  values_of t (a ++ b) = values_of t a ++ values_of t b.
Proof.
  unfold values_of. now rewrite filter_app, map_app.
Qed.

Lemma values_of_absent (t : Tag) (a : table Tag Val) :
  ~ In t (tags a) -> values_of t a = [].
Proof.
  intros Hout. apply length_zero_iff_nil. rewrite length_values_of.
  now apply count_occ_not_In.
Qed.

Lemma occurrences_app (t : Tag) (a b : table Tag Val) :
  occurrences t (a ++ b) = occurrences t a + occurrences t b.
Proof.
  unfold occurrences, tags. now rewrite map_app, count_occ_app.
Qed.

Lemma all_one_or_some_zero (A : Type) (f : A -> nat) (l : list A) :
  Forall (fun e => f e <= 1) l ->
  Forall (fun e => f e = 1) l \/ exists e, In e l /\ f e = 0.
Proof.
  induction 1 as [|a l Ha _ IH].
  - left. constructor.
  - destruct (f a) as [|[|n]] eqn:E.
    + right. exists a. split; [now left | assumption].
    + destruct IH as [IH|[e [Hin He]]].
      * left. now constructor.
      * right. exists e. split; [now right | assumption].
    + lia.
Qed.

Lemma insert_lefts_raises (l : table Tag Val) (d : grouping Tag Val) :
  raises_only (@is_DuplicateTag _ _) (insert_lefts l d).
Proof.
  revert d. induction l as [|[t v] l IH]; intros d; simpl.
  - exact I.
  - destruct (OrderedDict.get tag_eq_dec t d) as [[first rs]|].
    + reflexivity.
    + apply IH.
Qed.

Lemma append_rights_raises (r : table Tag Val) (d : grouping Tag Val) :
  raises_only (@is_NoLeft _ _) (append_rights r d).
Proof.
  revert d. induction r as [|[t v] r IH]; intros d; simpl.
  - exact I.
  - destruct (OrderedDict.get tag_eq_dec t d) as [[lv rs]|].
    + apply IH.
    + reflexivity.
Qed.

Lemma confront_raw_raises (l r : table Tag Val) :
  raises_only (fun e => is_DuplicateTag e || is_NoLeft e)
    (_confront_two_tables tag_eq_dec l r).
Proof.
  unfold _confront_two_tables.
  pose proof (insert_lefts_raises l (OrderedDict.empty Tag (Val * list Val)))
    as H1.
  destruct (insert_lefts l _) as [d|e]; simpl in *.
  - pose proof (append_rights_raises r d) as H2.
    destruct (append_rights r d) as [d'|e]; simpl in *.
    + exact I.
    + rewrite H2. apply orb_true_r.
  - now rewrite H1.
Qed.

Lemma pair_loop_raises (its : list (Tag * (Val * list Val)))
    (acc : list (Val * option Val)) :
  raises_only (@is_MultipleRight _ _) (pair_loop true its acc).
Proof.
  revert acc. induction its as [|[t [lv rs]] its IH]; intros acc; simpl.
  - exact I.
  - destruct rs as [|r0 [|r1 rs]]; simpl; try apply IH.
    reflexivity.
Qed.

Lemma pairwise_allow_raises (l r : table Tag Val) :
  raises_only (fun e => is_DuplicateTag e || is_NoLeft e
                        || is_MultipleRight e)
    (pairwise_two_tables tag_eq_dec l r true).
Proof.
  unfold pairwise_two_tables.
  pose proof (confront_raw_raises l r) as H1.
  destruct (_confront_two_tables tag_eq_dec l r) as [its|e]; simpl in *.
  - pose proof (pair_loop_raises its []) as H2.
    destruct (pair_loop true its []) as [ps|e]; simpl in *.
    + exact I.
    + rewrite H2. apply orb_true_r.
  - now rewrite H1.
Qed.

Lemma confront_raises (l r : table Tag Val) :
  raises_only (fun e => is_DuplicateTag e || is_NoLeft e)
    (confront_two_tables tag_eq_dec l r).
Proof.
  unfold confront_two_tables.
  pose proof (confront_raw_raises l r) as H1.
  now destruct (_confront_two_tables tag_eq_dec l r) as [its|e].
Qed.

End GroupingFacts.

(** ** The reconciler: what the two entry points return and raise *)

Section EntryPoints.
Variables Tag Val : Type.
Variable tag_eq_dec : forall x y : Tag, {x = y} + {x <> y}.

Local Abbreviation values_of := (values_of (Val:=Val) tag_eq_dec).
Local Abbreviation occurrences := (occurrences (Val:=Val) tag_eq_dec).
Local Abbreviation confront_two_tables :=
  (confront_two_tables (Val:=Val) tag_eq_dec).
Local Abbreviation pairwise_two_tables :=
  (pairwise_two_tables (Val:=Val) tag_eq_dec).

(** C1. On a left table with pairwise distinct tags and a right table
    whose tags all occur on the left, [confront_two_tables] returns one
    entry per left entry, in left order: the left value with the values
    of the right entries bearing its tag, in right order.  A left tag
    that no right entry bears keeps its entry, with the empty list. *)
Theorem confront_two_tables_groups (l r : table Tag Val) :
  NoDup (tags l) -> incl (tags r) (tags l) ->
  confront_two_tables l r
  = Ok (map (fun e => (snd e, values_of (fst e) r)) l)
  /\ (forall t v, In (t, v) l -> occurrences t r = 0 ->
      values_of t r = []
      /\ exists entries,
           confront_two_tables l r = Ok entries /\ In (v, []) entries).
Proof.
  intros Hnd Hincl.
  assert (Hres : confront_two_tables l r
                 = Ok (map (fun e => (snd e, values_of (fst e) r)) l)).
  { unfold confront_two_tables.
    rewrite confront_raw_ok by assumption. simpl.
    unfold grouped. now rewrite map_map. }
  split; [exact Hres|].
  intros t v Hin Hocc.
  assert (Hnil : values_of t r = []).
  { apply length_zero_iff_nil. now rewrite length_values_of. }
  split; [exact Hnil|].
  eexists. split; [exact Hres|].
  apply in_map_iff. exists (t, v). simpl. now rewrite Hnil.
Qed.

(** C2. When the left tags are pairwise distinct and the right table
    bears each of them exactly once and no other tag,
    [pairwise_two_tables] returns, whatever [allow_no_right] is, the
    pairs of each left value with the right value of its tag, in left
    order; no pair holds [None]. *)
Theorem pairwise_two_tables_one_to_one (l r : table Tag Val)
    (allow : bool) :
  NoDup (tags l) -> incl (tags r) (tags l) ->
  (forall t, In t (tags l) -> occurrences t r = 1) ->
  pairwise_two_tables l r allow
  = Ok (map (fun e => (snd e, hd_error (values_of (fst e) r))) l)
  /\ Forall (fun e => exists rv,
                 In (fst e, rv) r
                 /\ values_of (fst e) r = [rv]
                 /\ hd_error (values_of (fst e) r) = Some rv) l.
Proof.
  intros Hnd Hincl Hone. split.
  - apply pairwise_all; try assumption.
    apply Forall_forall. intros e He. left. apply Hone.
    unfold tags. now apply in_map.
  - apply Forall_forall. intros e He.
    assert (Hlen : length (values_of (fst e) r) = 1).
    { rewrite length_values_of. apply Hone. unfold tags. now apply in_map. }
    destruct (values_of (fst e) r) as [|rv [|? ?]] eqn:E; try discriminate.
    exists rv. split; [|split; reflexivity].
    apply (values_of_In tag_eq_dec). rewrite E. now left.
Qed.

(** C3. With pairwise distinct left tags, right tags all on the left,
    no left tag borne by more than one right entry and some left tag
    borne by none: when [allow_no_right] is true every left value is
    paired, in left order, and each left value without a right entry is
    paired with [None]; when it is false the call raises
    [NoRightValueError] with the tag and the left value of the first
    left entry without a right entry. *)
Theorem pairwise_two_tables_missing_right (l r : table Tag Val) :
  NoDup (tags l) -> incl (tags r) (tags l) ->
  (exists t, In t (tags l) /\ occurrences t r = 0) ->
  (forall t, In t (tags l) -> occurrences t r <= 1) ->
  (pairwise_two_tables l r true
   = Ok (map (fun e => (snd e, hd_error (values_of (fst e) r))) l)
   /\ forall t v, In (t, v) l -> occurrences t r = 0 ->
       exists pairs,
         pairwise_two_tables l r true = Ok pairs /\ In (v, None) pairs)
  /\ exists pre t v post,
       l = pre ++ (t, v) :: post
       /\ occurrences t r = 0
       /\ Forall (fun e => occurrences (fst e) r = 1) pre
       /\ pairwise_two_tables l r false = Raise (NoRightValueError t v).
Proof.
  intros Hnd Hincl [t0 [Ht0 Hzero]] Hmost.
  assert (Hres : pairwise_two_tables l r true
                 = Ok (map (fun e => (snd e,
                                      hd_error (values_of (fst e) r))) l)).
  { apply pairwise_all; try assumption.
    apply Forall_forall. intros e He.
    assert (H1 : occurrences (fst e) r <= 1)
      by (apply Hmost; unfold tags; now apply in_map).
    destruct (occurrences (fst e) r) as [|[|n]]; [now right | now left | lia]. }
  split; [split; [exact Hres|]|].
  - intros t v Hin Hocc. eexists. split; [exact Hres|].
    apply in_map_iff. exists (t, v). simpl.
    rewrite values_of_absent; [split; [reflexivity | assumption]|].
    apply (count_occ_not_In tag_eq_dec). exact Hocc.
  - destruct (first_such (fun e => occurrences (fst e) r =? 0) l)
      as (pre & [t v] & post & Hl & Hx & Hpre).
    { apply in_map_iff in Ht0 as [e [He Hin]]. exists e.
      split; [assumption|]. rewrite He. now apply Nat.eqb_eq. }
    simpl in Hx. apply Nat.eqb_eq in Hx.
    assert (Hone : Forall (fun e => occurrences (fst e) r = 1) pre).
    { apply Forall_forall. intros e He.
      rewrite Forall_forall in Hpre. specialize (Hpre e He).
      apply Nat.eqb_neq in Hpre.
      assert (H1 : occurrences (fst e) r <= 1).
      { apply Hmost. unfold tags. apply in_map. rewrite Hl.
        apply in_app_iff. now left. }
      lia. }
    exists pre, t, v, post. repeat split; try assumption.
    subst l. now apply pairwise_stops_no_right.
Qed.

(** C4, as the code has it.  With pairwise distinct left tags and right
    tags all on the left, if some left tag is borne by two or more
    right entries the call returns no pairing.  Let [t] be the first
    such tag in left order.  When [allow_no_right] is true the call
    raises [MultipleRightValueError] with [t], its left value and all
    its right values in right order.  When it is false the call raises
    the same error if every left entry before [t] has a right entry,
    and otherwise [NoRightValueError] for the first left entry that has
    none. *)
Theorem pairwise_two_tables_fan_out (l r : table Tag Val) :
  NoDup (tags l) -> incl (tags r) (tags l) ->
  (exists t, In t (tags l) /\ 2 <= occurrences t r) ->
  exists pre t v post,
    l = pre ++ (t, v) :: post
    /\ 2 <= occurrences t r
    /\ Forall (fun e => occurrences (fst e) r <= 1) pre
    /\ pairwise_two_tables l r true
       = Raise (MultipleRightValueError t v (values_of t r))
    /\ (Forall (fun e => occurrences (fst e) r = 1) pre ->
        pairwise_two_tables l r false
        = Raise (MultipleRightValueError t v (values_of t r)))
    /\ (~ Forall (fun e => occurrences (fst e) r = 1) pre ->
        exists pre1 t1 v1 post1,
          pre = pre1 ++ (t1, v1) :: post1
          /\ Forall (fun e => occurrences (fst e) r = 1) pre1
          /\ occurrences t1 r = 0
          /\ pairwise_two_tables l r false
             = Raise (NoRightValueError t1 v1)).
Proof.
  intros Hnd Hincl [t0 [Ht0 Hmany]].
  destruct (first_such (fun e => 2 <=? occurrences (fst e) r) l)
    as (pre & [t v] & post & Hl & Hx & Hpre).
  { apply in_map_iff in Ht0 as [e [He Hin]]. exists e.
    split; [assumption|]. rewrite He. now apply Nat.leb_le. }
  apply Nat.leb_le in Hx. simpl in Hx.
  assert (Hle : Forall (fun e => occurrences (fst e) r <= 1) pre).
  { eapply Forall_impl; [|exact Hpre]. intros e He.
    apply Nat.leb_gt in He. lia. }
  exists pre, t, v, post. subst l.
  split; [reflexivity|]. split; [assumption|]. split; [assumption|].
  split; [|split].
  - apply pairwise_stops_multiple; try assumption.
    eapply Forall_impl; [|exact Hle]. intros e He. simpl in He.
    destruct (occurrences (fst e) r) as [|[|n]];
      [now right | now left | lia].
  - intros Hone. apply pairwise_stops_multiple; try assumption.
    eapply Forall_impl; [|exact Hone]. intros e He. now left.
  - intros Hsome.
    destruct (all_one_or_some_zero (fun e => occurrences (fst e) r) Hle)
      as [Hone|Hzero]; [contradiction|].
    destruct (first_such (fun e => occurrences (fst e) r =? 0) pre)
      as (pre1 & [t1 v1] & post1 & Hpre1 & Hz & Hbefore).
    { destruct Hzero as [e [Hin He]]. exists e.
      split; [assumption | now apply Nat.eqb_eq]. }
    simpl in Hz. apply Nat.eqb_eq in Hz.
    assert (Hone : Forall (fun e => occurrences (fst e) r = 1) pre1).
    { subst pre. apply Forall_app in Hle as [Hle1 _].
      apply Forall_forall. intros e He.
      rewrite Forall_forall in Hle1, Hbefore.
      specialize (Hle1 e He). specialize (Hbefore e He). simpl in Hbefore.
      apply Nat.eqb_neq in Hbefore. lia. }
    exists pre1, t1, v1, post1.
    split; [assumption|]. split; [assumption|]. split; [assumption|].
    subst pre. rewrite <- app_assoc in *. simpl in *.
    now apply pairwise_stops_no_right.
Qed.

(** C5, as the code has it.  A left table in which a tag comes more
    than once makes both entry points raise [DuplicateTagError] in the
    first loop, whatever the right table holds.  The error names the
    first tag to come a second time, with the left values of its first
    two entries; these are all the left values of that tag when it
    comes exactly twice. *)
Theorem duplicate_tag_raised (l : table Tag Val) :
  ~ NoDup (tags l) ->
  exists p1 t v1 p2 v2 post,
    l = p1 ++ (t, v1) :: p2 ++ (t, v2) :: post
    /\ NoDup (tags (p1 ++ (t, v1) :: p2))
    /\ insert_lefts tag_eq_dec l (OrderedDict.empty Tag (Val * list Val))
       = Raise (DuplicateTagError t [v1; v2])
    /\ (forall r,
          confront_two_tables l r = Raise (DuplicateTagError t [v1; v2])
          /\ forall allow,
               pairwise_two_tables l r allow
               = Raise (DuplicateTagError t [v1; v2]))
    /\ (occurrences t l = 2 -> values_of t l = [v1; v2]).
Proof.
  intros Hdup.
  destruct (first_repeat tag_eq_dec l Hdup)
    as (p1 & t & v1 & p2 & v2 & post & -> & Hpre).
  exists p1, t, v1, p2, v2, post.
  split; [reflexivity|]. split; [exact Hpre|].
  split; [now apply insert_lefts_dup|]. split.
  - intros r. split.
    + unfold confront_two_tables.
      now rewrite confront_raw_dup.
    + intros allow. now apply pairwise_dup.
  - intros Htwo.
    unfold tags in Hpre. rewrite map_app in Hpre. simpl in Hpre.
    pose proof (NoDup_remove_2 _ _ _ Hpre) as Hout.
    assert (H1 : ~ In t (tags p1))
      by (intros H; apply Hout; apply in_app_iff; now left).
    assert (H2 : ~ In t (tags p2))
      by (intros H; apply Hout; apply in_app_iff; now right).
    change ((t, v1) :: p2 ++ (t, v2) :: post)
      with ([(t, v1)] ++ p2 ++ [(t, v2)] ++ post) in *.
    rewrite !occurrences_app in Htwo.
    rewrite !values_of_app.
    assert (E1 : occurrences t [(t, v1)] = 1).
    { unfold occurrences. simpl.
      destruct (tag_eq_dec t t); [reflexivity | contradiction]. }
    assert (E2 : occurrences t [(t, v2)] = 1).
    { unfold occurrences. simpl.
      destruct (tag_eq_dec t t); [reflexivity | contradiction]. }
    rewrite E1, E2 in Htwo.
    assert (H3 : ~ In t (tags post)).
    { apply (count_occ_not_In tag_eq_dec).
      unfold occurrences in Htwo. lia. }
    rewrite (@values_of_absent _ _ tag_eq_dec _ _ H1),
      (@values_of_absent _ _ tag_eq_dec _ _ H2),
      (@values_of_absent _ _ tag_eq_dec _ _ H3).
    now rewrite !values_of_cons_eq.
Qed.

(** C6. With pairwise distinct left tags, a right table holding an
    entry whose tag is not on the left makes both entry points raise
    [NoLeftValueError] with the tag and the value of the first such
    right entry, however often that tag comes back later. *)
Theorem missing_left_raised (l r : table Tag Val) :
  NoDup (tags l) ->
  (exists e, In e r /\ ~ In (fst e) (tags l)) ->
  exists pre t rv post,
    r = pre ++ (t, rv) :: post
    /\ ~ In t (tags l)
    /\ incl (tags pre) (tags l)
    /\ confront_two_tables l r = Raise (NoLeftValueError t rv)
    /\ forall allow,
         pairwise_two_tables l r allow = Raise (NoLeftValueError t rv).
Proof.
  intros Hnd Horphan.
  destruct (first_orphan tag_eq_dec l r Horphan)
    as (pre & t & rv & post & -> & Hout & Hpre).
  exists pre, t, rv, post.
  split; [reflexivity|]. split; [assumption|]. split; [assumption|]. split.
  - unfold confront_two_tables.
    now rewrite confront_raw_orphan.
  - intros allow. now apply pairwise_orphan.
Qed.

(** C9. With pairwise distinct left tags, when the right table holds
    both an entry whose tag is not on the left and a left tag borne by
    two or more entries, [pairwise_two_tables] raises
    [NoLeftValueError] and not [MultipleRightValueError]: the grouping
    of the whole right table comes before the pairing loop. *)
Theorem missing_left_before_multiple_right (l r : table Tag Val)
    (allow : bool) :
  NoDup (tags l) ->
  (exists e, In e r /\ ~ In (fst e) (tags l)) ->
  (exists t, In t (tags l) /\ 2 <= occurrences t r) ->
  (exists t rv,
      In (t, rv) r /\ ~ In t (tags l)
      /\ pairwise_two_tables l r allow = Raise (NoLeftValueError t rv)
      /\ _confront_two_tables tag_eq_dec l r
         = Raise (NoLeftValueError t rv))
  /\ raises_only (@is_NoLeft _ _) (pairwise_two_tables l r allow)
  /\ forall t v rs,
       pairwise_two_tables l r allow
       <> Raise (MultipleRightValueError t v rs).
Proof.
  intros Hnd Horphan _.
  destruct (first_orphan tag_eq_dec l r Horphan)
    as (pre & t & rv & post & -> & Hout & Hpre).
  pose proof (@pairwise_orphan _ _ tag_eq_dec allow l pre post t rv
                Hnd Hpre Hout) as Hp.
  split; [|split].
  - exists t, rv. split; [apply in_elt|]. split; [assumption|].
    split; [exact Hp|]. now apply confront_raw_orphan.
  - now rewrite Hp.
  - intros t' v' rs. rewrite Hp. discriminate.
Qed.

End EntryPoints.

(** ** The doctests as instances *)

Ltac distinct_tags := repeat constructor; simpl; intuition discriminate.
Ltac tags_within := intros a Ha; simpl in Ha |- *; intuition.

Lemma confront_two_tables_groups_witness :
  NoDup (tags Doctest.left3)
  /\ incl (tags Doctest.right_fan) (tags Doctest.left3)
  /\ confront_two_tables string_dec Doctest.left3 Doctest.right_fan
     = Ok [("L1", ["R1"; "R1-B"]); ("L2", []); ("L3", ["R3"])]%string.
Proof.
  assert (Hnd : NoDup (tags Doctest.left3)) by distinct_tags.
  assert (Hincl : incl (tags Doctest.right_fan) (tags Doctest.left3))
    by tags_within.
  split; [exact Hnd|]. split; [exact Hincl|].
  exact (proj1 (@confront_two_tables_groups _ _ string_dec
                  Doctest.left3 Doctest.right_fan Hnd Hincl)).
Defined.

Lemma pairwise_two_tables_one_to_one_witness :
  NoDup (tags Doctest.left3)
  /\ incl (tags Doctest.right_perm) (tags Doctest.left3)
  /\ (forall t, In t (tags Doctest.left3) ->
      occurrences string_dec t Doctest.right_perm = 1)
  /\ pairwise_two_tables string_dec Doctest.left3 Doctest.right_perm false
     = Ok [("L1", Some "R1"); ("L2", Some "R2"); ("L3", Some "R3")]%string.
Proof.
  assert (Hnd : NoDup (tags Doctest.left3)) by distinct_tags.
  assert (Hincl : incl (tags Doctest.right_perm) (tags Doctest.left3))
    by tags_within.
  assert (Hone : forall t, In t (tags Doctest.left3) ->
                 occurrences string_dec t Doctest.right_perm = 1).
  { intros t Ht. simpl in Ht.
    destruct Ht as [<-|[<-|[<-|[]]]]; reflexivity. }
  split; [exact Hnd|]. split; [exact Hincl|]. split; [exact Hone|].
  exact (proj1 (@pairwise_two_tables_one_to_one _ _ string_dec
                  Doctest.left3 Doctest.right_perm false Hnd Hincl Hone)).
Defined.

Lemma pairwise_two_tables_missing_right_witness :
  pairwise_two_tables string_dec Doctest.left3 Doctest.right_short true
  = Ok [("L1", Some "R1"); ("L2", None); ("L3", Some "R3")]%string
  /\ exists t v,
       occurrences string_dec t Doctest.right_short = 0
       /\ pairwise_two_tables string_dec Doctest.left3 Doctest.right_short
            false
          = Raise (NoRightValueError t v).
Proof.
  assert (Hnd : NoDup (tags Doctest.left3)) by distinct_tags.
  assert (Hincl : incl (tags Doctest.right_short) (tags Doctest.left3))
    by tags_within.
  assert (Hzero : exists t, In t (tags Doctest.left3)
                  /\ occurrences string_dec t Doctest.right_short = 0).
  { exists "tag2"%string. split; [simpl; tauto | reflexivity]. }
  assert (Hmost : forall t, In t (tags Doctest.left3) ->
                  occurrences string_dec t Doctest.right_short <= 1).
  { intros t Ht. simpl in Ht.
    destruct Ht as [<-|[<-|[<-|[]]]]; vm_compute; lia. }
  destruct (@pairwise_two_tables_missing_right _ _ string_dec
              Doctest.left3 Doctest.right_short Hnd Hincl Hzero Hmost)
    as [[Htrue _] (pre & t & v & post & _ & Hocc & _ & Hfalse)].
  split; [exact Htrue|].
  exists t, v. split; [exact Hocc | exact Hfalse].
Defined.

Lemma pairwise_two_tables_fan_out_witness :
  exists t v,
    2 <= occurrences string_dec t Doctest.right_multi
    /\ pairwise_two_tables string_dec Doctest.left3 Doctest.right_multi true
       = Raise (MultipleRightValueError t v
                  (values_of string_dec t Doctest.right_multi)).
Proof.
  assert (Hnd : NoDup (tags Doctest.left3)) by distinct_tags.
  assert (Hincl : incl (tags Doctest.right_multi) (tags Doctest.left3))
    by tags_within.
  assert (Hmany : exists t, In t (tags Doctest.left3)
                  /\ 2 <= occurrences string_dec t Doctest.right_multi).
  { exists "tag1"%string. split; [simpl; tauto | vm_compute; lia]. }
  destruct (@pairwise_two_tables_fan_out _ _ string_dec
              Doctest.left3 Doctest.right_multi Hnd Hincl Hmany)
    as (pre & t & v & post & _ & Hocc & _ & Htrue & _).
  exists t, v. split; [exact Hocc | exact Htrue].
Defined.

(** With [allow_no_right] false, a left entry without a right entry
    that comes before the tag with two right entries is reported
    first, as [NoRightValueError]. *)
Lemma pairwise_two_tables_fan_out_counterexample :
  NoDup (tags Doctest.left3)
  /\ incl (tags Doctest.right_late_fan) (tags Doctest.left3)
  /\ occurrences string_dec "tag2"%string Doctest.right_late_fan = 2
  /\ pairwise_two_tables string_dec Doctest.left3 Doctest.right_late_fan
       false
     = Raise (NoRightValueError "tag1" "L1")%string
  /\ ~ exists t v rs,
         pairwise_two_tables string_dec Doctest.left3
           Doctest.right_late_fan false
         = Raise (MultipleRightValueError t v rs).
Proof.
  split; [distinct_tags|]. split; [tags_within|].
  split; [reflexivity|]. split; [reflexivity|].
  intros (t & v & rs & H). vm_compute in H. discriminate.
Qed.

Lemma duplicate_tag_raised_witness :
  ~ NoDup (tags Doctest.left_twice)
  /\ exists t v1 v2,
       values_of string_dec t Doctest.left_twice = [v1; v2]
       /\ forall r allow,
            confront_two_tables string_dec Doctest.left_twice r
            = Raise (DuplicateTagError t [v1; v2])
            /\ pairwise_two_tables string_dec Doctest.left_twice r allow
               = Raise (DuplicateTagError t [v1; v2]).
Proof.
  assert (Hdup : ~ NoDup (tags Doctest.left_twice)).
  { intros H. apply NoDup_cons_iff in H as [H _]. apply H. now left. }
  split; [exact Hdup|].
  destruct (@duplicate_tag_raised _ _ string_dec Doctest.left_twice Hdup)
    as (p1 & t & v1 & p2 & v2 & post & Hl & _ & _ & Hboth & Htwice).
  exists t, v1, v2. split.
  - apply Htwice.
    destruct p1 as [|[t1 x1] p1]; simpl in Hl.
    + injection Hl as <- _ _. reflexivity.
    + destruct p1 as [|[t2 x2] p1]; simpl in Hl.
      * injection Hl as _ _ Hl. destruct p2; discriminate.
      * injection Hl as _ _ _ _ Hl. destruct p1; discriminate.
  - intros r allow. destruct (Hboth r) as [Hc Hp].
    split; [exact Hc | exact (Hp allow)].
Defined.

(** A tag that comes three times is reported with its first two left
    values only. *)
Lemma duplicate_tag_raised_counterexample :
  ~ NoDup (tags Doctest.left_thrice)
  /\ values_of string_dec "tag1"%string Doctest.left_thrice
     = ["L1"; "L1-B"; "L1-C"]%string
  /\ confront_two_tables string_dec Doctest.left_thrice []
     = Raise (DuplicateTagError "tag1" ["L1"; "L1-B"])%string
  /\ pairwise_two_tables string_dec Doctest.left_thrice [] true
     = Raise (DuplicateTagError "tag1" ["L1"; "L1-B"])%string
  /\ confront_two_tables string_dec Doctest.left_thrice []
     <> Raise (DuplicateTagError "tag1"%string
                 (values_of string_dec "tag1"%string Doctest.left_thrice)).
Proof.
  split.
  { intros H. apply NoDup_cons_iff in H as [H _]. apply H. now left. }
  split; [reflexivity|]. split; [reflexivity|]. split; [reflexivity|].
  vm_compute. discriminate.
Qed.

Lemma missing_left_raised_witness :
  NoDup (tags Doctest.left2)
  /\ (exists e, In e Doctest.right_orphan
              /\ ~ In (fst e) (tags Doctest.left2))
  /\ exists t rv,
       In (t, rv) Doctest.right_orphan
       /\ confront_two_tables string_dec Doctest.left2 Doctest.right_orphan
          = Raise (NoLeftValueError t rv)
       /\ pairwise_two_tables string_dec Doctest.left2 Doctest.right_orphan
            true
          = Raise (NoLeftValueError t rv).
Proof.
  assert (Hnd : NoDup (tags Doctest.left2)) by distinct_tags.
  assert (Horphan : exists e, In e Doctest.right_orphan
                    /\ ~ In (fst e) (tags Doctest.left2)).
  { exists ("tag3", "missing-left")%string.
    split; [now left | simpl; intuition discriminate]. }
  split; [exact Hnd|]. split; [exact Horphan|].
  destruct (@missing_left_raised _ _ string_dec
              Doctest.left2 Doctest.right_orphan Hnd Horphan)
    as (pre & t & rv & post & Hr & _ & _ & Hc & Hp).
  exists t, rv. split; [|split; [exact Hc | exact (Hp true)]].
  rewrite Hr. apply in_elt.
Defined.

Lemma missing_left_before_multiple_right_witness :
  NoDup (tags Doctest.left3)
  /\ (exists e, In e Doctest.right_orphan_fan
              /\ ~ In (fst e) (tags Doctest.left3))
  /\ (exists t, In t (tags Doctest.left3)
              /\ 2 <= occurrences string_dec t Doctest.right_orphan_fan)
  /\ raises_only (@is_NoLeft _ _)
       (pairwise_two_tables string_dec Doctest.left3
          Doctest.right_orphan_fan true).
Proof.
  assert (Hnd : NoDup (tags Doctest.left3)) by distinct_tags.
  assert (Horphan : exists e, In e Doctest.right_orphan_fan
                    /\ ~ In (fst e) (tags Doctest.left3)).
  { exists ("tag9", "R9")%string.
    split; [simpl; tauto | simpl; intuition discriminate]. }
  assert (Hmany : exists t, In t (tags Doctest.left3)
                  /\ 2 <= occurrences string_dec t Doctest.right_orphan_fan).
  { exists "tag1"%string. split; [simpl; tauto | vm_compute; lia]. }
  split; [exact Hnd|]. split; [exact Horphan|]. split; [exact Hmany|].
  exact (proj1 (proj2
    (@missing_left_before_multiple_right _ _ string_dec
       Doctest.left3 Doctest.right_orphan_fan true Hnd Horphan Hmany))).
Defined.

(** ** Stripping and splitting *)

Section StringFacts.
Variable p : char -> bool.

Lemma drop_while_all_app (x y : pystr) :
  forallb p x = true -> drop_while p (x ++ y) = drop_while p y.
Proof.
  induction x as [|c x IH]; simpl; [reflexivity|].
  intros H. apply andb_true_iff in H as [Hc Hx].
  rewrite Hc. now apply IH.
Qed.

Lemma drop_while_stop (c : char) (y : pystr) :
  p c = false -> drop_while p (c :: y) = c :: y.
Proof.
  intros H. simpl. now rewrite H.
Qed.

Lemma drop_while_app_stop (x y : pystr) (c : char) :
  p c = false -> drop_while p (x ++ c :: y) = drop_while p x ++ c :: y.
Proof.
  intros Hc. induction x as [|a x IH]; simpl.
  - now rewrite Hc.
  - destruct (p a); [exact IH | reflexivity].
Qed.

Lemma take_while_all_app (x y : pystr) (c : char) :
  forallb p x = true -> p c = false -> take_while p (x ++ c :: y) = x.
Proof.
  intros Hx Hc. induction x as [|a x IH]; simpl.
  - now rewrite Hc.
  - simpl in Hx. apply andb_true_iff in Hx as [Ha Hx].
    rewrite Ha. now rewrite IH.
Qed.

Lemma take_drop_while (x : pystr) :
  x = take_while p x ++ drop_while p x.
Proof.
  induction x as [|a x IH]; simpl; [reflexivity|].
  destruct (p a); simpl; [now rewrite <- IH | reflexivity].
Qed.

Lemma take_while_all (x : pystr) : forallb p (take_while p x) = true.
Proof.
  induction x as [|a x IH]; simpl; [reflexivity|].
  destruct (p a) eqn:E; simpl; [now rewrite E | reflexivity].
Qed.

Lemma forallb_rev (x : pystr) : forallb p x = true -> forallb p (rev x) = true.
Proof.
  rewrite !forallb_forall. intros H c Hc. apply H. now apply in_rev.
Qed.
End StringFacts.

(** [rstrip] takes a run of whitespace off the end and nothing else. *)
Lemma rstrip_trailing (s : pystr) :
  exists tr, s = rstrip s ++ tr /\ forallb isspace tr = true.
Proof.
  exists (rev (take_while isspace (rev s))). split.
  - unfold rstrip. rewrite <- rev_app_distr, <- take_drop_while.
    now rewrite rev_involutive.
  - apply forallb_rev, take_while_all.
Qed.

Lemma rstrip_keeps (a s : pystr) (c : char) :
  isspace c = false -> rstrip (a ++ c :: s) = a ++ c :: rstrip s.
Proof.
  intros Hc. unfold rstrip.
  rewrite rev_app_distr. simpl. rewrite <- app_assoc. simpl.
  rewrite drop_while_app_stop by assumption.
  rewrite rev_app_distr. simpl. rewrite rev_involutive, <- app_assoc.
  reflexivity.
Qed.

(** A value that does not end in whitespace is left as it is. *)
Lemma rstrip_id (a : pystr) (c : char) :
  isspace c = false -> rstrip (a ++ [c]) = a ++ [c].
Proof.
  intros Hc. now rewrite rstrip_keeps.
Qed.

Lemma nonspace_false (c : char) : isspace c = true -> nonspace c = false.
Proof. unfold nonspace. now intros ->. Qed.

Lemma nonspace_true (c : char) : nonspace c = true -> isspace c = false.
Proof. unfold nonspace. now destruct (isspace c). Qed.

Lemma split_None_1_two (s w r : pystr) :
  drop_while isspace s = w -> w <> [] ->
  drop_while isspace (drop_while nonspace w) = r -> r <> [] ->
  split_None_1 s = [take_while nonspace w; r].
Proof.
  intros Hw Hwne Hr Hrne. unfold split_None_1. rewrite Hw.
  destruct w as [|w0 w]; [contradiction|]. rewrite Hr.
  destruct r as [|r0 r]; [contradiction | reflexivity].
Qed.

(** The fields of a line written as tag, whitespace, rest. *)
Lemma fields_well_written (l : written_line) :
  well_written l ->
  fields (line_text l) = [w_tag l; rstrip (w_rest l)].
Proof.
  destruct l as [tag gap rest]. unfold well_written, line_text. simpl.
  intros (Htag & Htagc & Hgap & Hgapc & c & rest' & -> & Hc).
  destruct tag as [|t0 tag]; [contradiction|].
  destruct gap as [|g0 gap]; [contradiction|].
  simpl in Htagc, Hgapc.
  apply andb_true_iff in Htagc as [Ht0 Htagc].
  apply andb_true_iff in Hgapc as [Hg0 Hgapc].
  unfold fields, strip, lstrip.
  replace (drop_while isspace ((t0 :: tag) ++ (g0 :: gap) ++ c :: rest'))
    with ((t0 :: tag) ++ (g0 :: gap) ++ c :: rest')
    by (simpl; now rewrite (@nonspace_true t0 Ht0)).
  replace ((t0 :: tag) ++ (g0 :: gap) ++ c :: rest')
    with (((t0 :: tag) ++ (g0 :: gap)) ++ c :: rest')
    by (now rewrite <- app_assoc).
  rewrite rstrip_keeps by assumption.
  rewrite <- app_assoc.
  set (line := (t0 :: tag) ++ (g0 :: gap) ++ c :: rstrip rest').
  assert (Hlead : drop_while isspace line = line)
    by (unfold line; simpl; now rewrite (@nonspace_true t0 Ht0)).
  assert (Hdrop : drop_while nonspace line = (g0 :: gap) ++ c :: rstrip rest').
  { unfold line.
    rewrite drop_while_all_app by (simpl; now rewrite Ht0).
    apply drop_while_stop. now apply nonspace_false. }
  assert (Htake : take_while nonspace line = t0 :: tag).
  { unfold line. simpl app at 2.
    apply take_while_all_app; [simpl; now rewrite Ht0|].
    now apply nonspace_false. }
  rewrite (@split_None_1_two line line (c :: rstrip rest')).
  - rewrite Htake. change (c :: rest') with ([] ++ c :: rest').
    now rewrite rstrip_keeps.
  - exact Hlead.
  - unfold line. discriminate.
  - rewrite Hdrop.
    rewrite drop_while_all_app by (simpl; now rewrite Hg0).
    now apply drop_while_stop.
  - discriminate.
Qed.

Lemma drop_while_head (p : char -> bool) (s s' : pystr) (c : char) :
  drop_while p s = c :: s' -> p c = false.
Proof.
  induction s as [|a s IH]; simpl; [discriminate|].
  destruct (p a) eqn:E; [exact IH|].
  intros [= <- _]. exact E.
Qed.

Lemma drop_while_all_nil (p : char -> bool) (s : pystr) :
  drop_while p s = [] <-> forallb p s = true.
Proof.
  induction s as [|a s IH]; simpl; [tauto|].
  destruct (p a); simpl; [exact IH|].
  split; discriminate.
Qed.

Lemma take_while_whole (p : char -> bool) (s : pystr) :
  forallb p s = true -> take_while p s = s.
Proof.
  induction s as [|a s IH]; simpl; [reflexivity|].
  intros H. apply andb_true_iff in H as [Ha Hs].
  rewrite Ha. now rewrite IH.
Qed.

Lemma rstrip_nil_iff (s : pystr) : rstrip s = [] <-> forallb isspace s = true.
Proof.
  split.
  - intros H. destruct (rstrip_trailing s) as (tr & Hs & Htr).
    rewrite H in Hs. simpl in Hs. now subst.
  - intros H. unfold rstrip.
    replace (drop_while isspace (rev s)) with (@nil char); [reflexivity|].
    symmetry. apply drop_while_all_nil. now apply forallb_rev.
Qed.

Lemma rstrip_cons (s : pystr) (c : char) :
  isspace c = false -> rstrip (c :: s) = c :: rstrip s.
Proof. intros H. exact (@rstrip_keeps [] s c H). Qed.

(** [strip] leaves no whitespace at either end. *)
Lemma strip_head (line s : pystr) (c : char) :
  strip line = c :: s -> isspace c = false.
Proof.
  unfold strip, lstrip.
  destruct (drop_while isspace line) as [|c0 x] eqn:E.
  - discriminate.
  - apply drop_while_head in E.
    rewrite (@rstrip_cons x c0 E). now intros [= <- _].
Qed.

Lemma rstrip_last (x a : pystr) (z : char) :
  rstrip x = a ++ [z] -> isspace z = false.
Proof.
  unfold rstrip. intros H.
  apply (f_equal (@rev char)) in H.
  rewrite rev_involutive, rev_app_distr in H. simpl in H.
  now apply drop_while_head in H.
Qed.

Lemma strip_last (line a : pystr) (z : char) :
  strip line = a ++ [z] -> isspace z = false.
Proof. unfold strip. apply rstrip_last. Qed.

Lemma strip_nil_iff (line : pystr) :
  strip line = [] <-> forallb isspace line = true.
Proof.
  unfold strip, lstrip. rewrite rstrip_nil_iff. split.
  - intros H. rewrite (take_drop_while isspace line).
    rewrite forallb_app, take_while_all. exact H.
  - intros H. apply drop_while_all_nil in H. now rewrite H.
Qed.

Lemma trimmed_inv (s : pystr) :
  trimmed s = true ->
  exists c s' a z,
    s = c :: s' /\ isspace c = false /\ s = a ++ [z] /\ isspace z = false.
Proof.
  destruct s as [|c s']; simpl; [discriminate|].
  intros H. apply andb_true_iff in H as [Hc Hz].
  destruct (@exists_last _ (c :: s')) as (a & z & Ha); [discriminate|].
  exists c, s', a, z. split; [reflexivity|].
  split; [now apply nonspace_true|]. split; [exact Ha|].
  apply nonspace_true.
  change (match s' with [] => c | _ :: _ => last s' c end)
    with (last (c :: s') c) in Hz.
  now rewrite Ha, last_last in Hz.
Qed.

Lemma trimmed_intro (s s' a : pystr) (c z : char) :
  s = c :: s' -> isspace c = false -> s = a ++ [z] -> isspace z = false ->
  trimmed s = true.
Proof.
  intros Hs Hc Ha Hz. unfold trimmed. rewrite Hs at 1.
  rewrite Ha at 1. rewrite last_last.
  unfold nonspace. now rewrite Hc, Hz.
Qed.

Lemma is_word_inv (s : pystr) :
  is_word s = true -> s <> [] /\ forallb nonspace s = true.
Proof.
  destruct s as [|c s]; simpl; [discriminate|].
  intros H. split; [discriminate | exact H].
Qed.

Lemma rstrip_app_space (v tr : pystr) :
  forallb isspace tr = true -> rstrip (v ++ tr) = rstrip v.
Proof.
  intros H. unfold rstrip. rewrite rev_app_distr.
  rewrite drop_while_all_app by now apply forallb_rev.
  reflexivity.
Qed.

Lemma rstrip_trimmed (v : pystr) : trimmed v = true -> rstrip v = v.
Proof.
  intros H. apply trimmed_inv in H as (c & s' & a & z & _ & _ & Ha & Hz).
  rewrite Ha. now apply rstrip_id.
Qed.

(** What [rstrip] leaves of a string that starts with a character that
    is no whitespace is trimmed. *)
Lemma trimmed_rstrip (c : char) (s : pystr) :
  isspace c = false -> trimmed (rstrip (c :: s)) = true.
Proof.
  intros Hc.
  destruct (@exists_last _ (rstrip (c :: s))) as (a & z & Ha).
  { rewrite (@rstrip_cons s c Hc). discriminate. }
  apply (@trimmed_intro (rstrip (c :: s)) (rstrip s) a c z).
  - now apply rstrip_cons.
  - exact Hc.
  - exact Ha.
  - exact (@rstrip_last (c :: s) a z Ha).
Qed.

(** ** The table parser *)

Lemma fields_length (line : pystr) : length (fields line) <= 2.
Proof.
  unfold fields, split_None_1.
  destruct (drop_while isspace (strip line)) as [|w0 w]; simpl; [lia|].
  destruct (drop_while isspace _); simpl; lia.
Qed.

(** A line either unpacks into its two fields or raises the
    [ValueError] of an unpacking that got fewer. *)
Lemma parse_line_cases (line : pystr) :
  (exists tag path,
      fields line = [tag; path] /\ parse_line line = Ok (tag, path))
  \/ (malformed line /\ length (fields line) < 2
      /\ parse_line line = Raise (ValueError (length (fields line)))).
Proof.
  pose proof (fields_length line) as Hlen.
  unfold parse_line, malformed. fold (fields line).
  destruct (fields line) as [|f1 [|f2 [|f3 fs]]]; simpl in *.
  - right. repeat split; [lia | lia].
  - right. repeat split; [lia | lia].
  - left. now exists f1, f2.
  - lia.
Qed.

Lemma parse_line_ok_fields (line tag path : pystr) :
  fields line = [tag; path] -> parse_line line = Ok (tag, path).
Proof.
  intros H. unfold parse_line. fold (fields line). now rewrite H.
Qed.

(** The generator either yields an entry for every line or stops at
    the first line that does not unpack. *)
Lemma parse_lines_cases (ls : list pystr) :
  (exists entries,
      parse_lines ls = Ok entries /\ Forall (fun l => ~ malformed l) ls)
  \/ (exists got, got < 2 /\ parse_lines ls = Raise (ValueError got)).
Proof.
  induction ls as [|line ls IH]; simpl.
  - left. exists []. split; [reflexivity | constructor].
  - destruct (parse_line_cases line)
      as [(tag & path & Hf & ->)|(Hbad & Hlt & ->)]; simpl.
    + destruct IH as [(entries & -> & Hall)|(got & Hlt & ->)]; simpl.
      * left. eexists. split; [reflexivity|]. constructor; [|assumption].
        unfold malformed. rewrite Hf. simpl. lia.
      * right. now exists got.
    + right. now exists (length (fields line)).
Qed.

Lemma parse_lines_well_written (ls : list written_line) :
  Forall well_written ls ->
  parse_lines (map line_text ls)
  = Ok (map (fun l => (w_tag l, rstrip (w_rest l))) ls).
Proof.
  induction 1 as [|l ls Hl _ IH]; simpl; [reflexivity|].
  rewrite (parse_line_ok_fields _ (fields_well_written Hl)). simpl.
  now rewrite IH.
Qed.

(** ** The drivers *)

Section DriverFacts.
Context {W : Type} {os : OS W}.

Lemma parse_file_lines (path : pystr) (st : State W) (ls : list pystr) :
  open_lines path (world st) = Ok ls ->
  _parse_old_new_file path st
  = (match parse_lines ls with
     | Ok entries => Ok entries
     | Raise e => Raise e
     end, st).
Proof.
  intros Hopen. unfold _parse_old_new_file. rewrite Hopen.
  now destruct (parse_lines ls).
Qed.

Lemma parse_file_result (path : pystr) (st : State W) :
  raises_only (fun e => is_ValueError e || is_OSError e)
    (fst (_parse_old_new_file path st))
  /\ snd (_parse_old_new_file path st) = st.
Proof.
  unfold _parse_old_new_file.
  destruct (open_lines path (world st)) as [ls|msg]; simpl.
  - destruct (parse_lines_cases ls) as [(es & -> & _)|(got & _ & ->)];
      simpl; auto.
  - auto.
Qed.

Lemma parse_tables_result (d : DirStats) (st : State W) :
  raises_only (fun e => is_ValueError e || is_OSError e)
    (fst (parse_old_new_file d st))
  /\ snd (parse_old_new_file d st) = st.
Proof.
  unfold parse_old_new_file, mbind.
  destruct (parse_file_result (old_path d) st) as [H1 H1'].
  destruct (_parse_old_new_file (old_path d) st) as [[old|e] st1];
    simpl in *; subst st1; [|auto].
  destruct (parse_file_result (new_path d) st) as [H2 H2'].
  destruct (_parse_old_new_file (new_path d) st) as [[new|e] st2];
    simpl in *; subst st2; auto.
Qed.

(** The old table file opens and has a line that does not unpack, or
    it parses and the new table file opens and has such a line: the
    parse raises [ValueError] and leaves the state as it was. *)
Lemma parse_tables_malformed (d : DirStats) (st : State W)
    (old_lines new_lines : list pystr) :
  open_lines (old_path d) (world st) = Ok old_lines ->
  (exists line, In line old_lines /\ malformed line)
  \/ (open_lines (new_path d) (world st) = Ok new_lines
      /\ exists line, In line new_lines /\ malformed line) ->
  exists got,
    got < 2 /\ parse_old_new_file d st = (Raise (ValueError got), st).
Proof.
  intros Hold Hbad.
  unfold parse_old_new_file, mbind.
  rewrite (parse_file_lines _ _ Hold).
  destruct (parse_lines_cases old_lines)
    as [(es & -> & Hall)|(got & Hlt & ->)]; [|now exists got].
  destruct Hbad as [(line & Hin & Hbad)|(Hnew & line & Hin & Hbad)].
  - exfalso. rewrite Forall_forall in Hall. exact (Hall _ Hin Hbad).
  - rewrite (parse_file_lines _ _ Hnew).
    destruct (parse_lines_cases new_lines)
      as [(es' & -> & Hall')|(got & Hlt & ->)]; [|now exists got].
    exfalso. rewrite Forall_forall in Hall'. exact (Hall' _ Hin Hbad).
Qed.

Lemma capture_passes_ValueError (A : Type) (body : M W A) (st st' : State W)
    (got : nat) :
  body st = (Raise (ValueError got), st') ->
  capture_os_error body st = (Raise (ValueError got), st').
Proof.
  intros H. unfold capture_os_error. now rewrite H.
Qed.

Lemma run_command_parse_raises (c : command) (args : Args) (st st' : State W)
    (e : exc) :
  capture_os_error (parse_old_new_file (get_dir_stats (name args))) st
  = (Raise e, st') ->
  run_command c args st = (Raise e, st').
Proof.
  intros H. destruct c; simpl; unfold main_move, main_copy, mbind;
    now rewrite H.
Qed.

Lemma os_call_result (op : W -> result pystr unit * W) (st : State W) :
  raises_only is_OSError (fst (os_call op st)).
Proof.
  unfold os_call. now destruct (op (world st)) as [[u|msg] w'].
Qed.

Lemma capture_result (A : Type) (body : M W A) (st : State W) :
  raises_only (fun e => is_ValueError e || is_OSError e || is_exit_fail e)
    (fst (body st)) ->
  raises_only (fun e => is_ValueError e || is_exit_fail e)
    (fst (capture_os_error body st)).
Proof.
  unfold capture_os_error.
  destruct (body st) as [[a|e] st']; simpl; [trivial|].
  now destruct e.
Qed.

Lemma for_each_result (A : Type) (ok : exc -> bool) (xs : list A)
    (body : A -> M W unit) :
  (forall x st, raises_only ok (fst (body x st))) ->
  forall st, raises_only ok (fst (for_each xs body st)).
Proof.
  intros Hbody. induction xs as [|x xs IH]; intros st; simpl.
  - exact I.
  - unfold mbind. specialize (Hbody x st).
    destruct (body x st) as [[u|e] st']; simpl in *; [apply IH | assumption].
Qed.

Lemma printed_step_result (msg : pystr) (step : M W unit) (st : State W) :
  (forall st', raises_only is_OSError (fst (step st'))) ->
  raises_only (fun e => is_ValueError e || is_exit_fail e)
    (fst (capture_os_error (print_stdout msg ;; step) st)).
Proof.
  intros Hstep. apply capture_result. unfold mbind, print_stdout.
  match goal with |- context [step ?s] => specialize (Hstep s);
    destruct (step s) as [[u|e] st'] end; simpl in *; [trivial|].
  rewrite Hstep. now rewrite orb_true_r.
Qed.

Lemma parse_stage_result (d : DirStats) (st : State W) :
  raises_only (fun e => is_ValueError e || is_exit_fail e)
    (fst (capture_os_error (parse_old_new_file d) st)).
Proof.
  apply capture_result.
  destruct (parse_tables_result d st) as [H _].
  destruct (fst (parse_old_new_file d st)) as [a|e]; simpl in *; [trivial|].
  now rewrite H.
Qed.

(** [main_move] returns, or raises the [ValueError] of a line that
    does not unpack, or leaves by [sys.exit(EXIT_FAIL)]. *)
Lemma main_move_result (args : Args) (st : State W) :
  raises_only (fun e => is_ValueError e || is_exit_fail e)
    (fst (main_move args st)).
Proof.
  unfold main_move, mbind.
  pose proof (parse_stage_result (get_dir_stats (name args)) st) as Hparse.
  destruct (capture_os_error (parse_old_new_file _) st)
    as [[tables|e] st1]; simpl in *; [|assumption].
  pose proof (pairwise_allow_raises pystr_eq_dec (fst tables) (snd tables))
    as Hpair.
  destruct (pairwise_two_tables pystr_eq_dec (fst tables) (snd tables) true)
    as [pairs|[t vs|t rv|t lv rs|t lv]]; simpl in *;
    try reflexivity; try discriminate.
  apply for_each_result. intros [o n] st'. simpl.
  apply printed_step_result. intros st''.
  destruct (dry_run args); [exact I|].
  destruct n; apply os_call_result.
Qed.

(** C7, as the code has it.  When the old table file opens and has a
    line that does not split into two fields, or has none and the new
    table file opens and has one, [move] and [copy] stop in the parse,
    before any reconciliation: nothing is printed on the standard
    output, the world is left as it was and no parsed entry is used.
    The [ValueError] of the unpacking is not among the handled
    failures: it reaches the handler of [main], which prints the
    traceback of an error that carries only the number of fields found,
    and exits with [EXIT_UNEXPECTED_FAIL]. *)
Theorem malformed_line_aborts (c : command) (args : Args) (w : W)
    (old_lines new_lines : list pystr) :
  open_lines (old_path (get_dir_stats (name args))) w = Ok old_lines ->
  (exists line, In line old_lines /\ malformed line)
  \/ (open_lines (new_path (get_dir_stats (name args))) w = Ok new_lines
      /\ exists line, In line new_lines /\ malformed line) ->
  exists got,
    got < 2
    /\ parse_old_new_file (get_dir_stats (name args)) (mkState w [] [])
       = (Raise (ValueError got), mkState w [] [])
    /\ run_main c args w
       = mkOutcome EXIT_UNEXPECTED_FAIL
           (mkState w [] [Traceback (ValueError got)]).
Proof.
  intros Hold Hbad.
  destruct (parse_tables_malformed (get_dir_stats (name args))
              (mkState w [] []) (new_lines := new_lines) Hold Hbad)
    as (got & Hlt & Hparse).
  exists got. split; [assumption|]. split; [assumption|].
  unfold run_main, main, try_except_Exception.
  pose proof (capture_passes_ValueError _ _ Hparse) as Hcap.
  rewrite (@run_command_parse_raises c args _ _ _ Hcap).
  reflexivity.
Qed.

(** C8, as the code has it.  A line written as a tag, a run of
    whitespace and a value yields the entry (tag, value), the entries
    coming in the order of the lines.  Whitespace inside the value is
    kept, but the line is stripped before it is split: all the
    whitespace at the end of the value goes with the line end, and
    nothing else does, so that a value is kept as written exactly when
    it does not end in whitespace. *)
Theorem parse_well_written_lines (ls : list written_line) :
  Forall well_written ls ->
  parse_lines (map line_text ls)
  = Ok (map (fun l => (w_tag l, rstrip (w_rest l))) ls)
  /\ (forall path (st : State W),
        open_lines path (world st) = Ok (map line_text ls) ->
        _parse_old_new_file path st
        = (Ok (map (fun l => (w_tag l, rstrip (w_rest l))) ls), st))
  /\ Forall (fun l => exists tr,
                 w_rest l = rstrip (w_rest l) ++ tr
                 /\ forallb isspace tr = true) ls
  /\ Forall (fun l => forall a c,
                 w_rest l = a ++ [c] -> isspace c = false ->
                 rstrip (w_rest l) = w_rest l) ls
  /\ Forall (fun l => trimmed (rstrip (w_rest l)) = true) ls
  /\ Forall (fun l => forall v tr,
                 w_rest l = v ++ tr -> forallb isspace tr = true ->
                 trimmed v = true ->
                 rstrip (w_rest l) = v) ls
  /\ Forall (fun l => forall value,
                 w_rest l = value ++ [nl] ->
                 exists kept dropped,
                   value = kept ++ dropped
                   /\ forallb isspace dropped = true
                   /\ trimmed kept = true
                   /\ rstrip (w_rest l) = kept
                   /\ (kept = value <-> trimmed value = true)
                   /\ (kept = value
                       <-> exists a c,
                             value = a ++ [c] /\ isspace c = false)) ls.
Proof.
  intros Hall.
  pose proof (parse_lines_well_written Hall) as Hparse.
  split; [exact Hparse|]. split; [|split; [|split; [|split; [|split]]]].
  - intros path st Hopen.
    rewrite (parse_file_lines _ _ Hopen). now rewrite Hparse.
  - apply Forall_forall. intros l _. apply rstrip_trailing.
  - apply Forall_forall. intros l _ a c -> Hc. now apply rstrip_id.
  - eapply Forall_impl; [|exact Hall].
    intros l (_ & _ & _ & _ & c & rest & -> & Hc).
    now apply trimmed_rstrip.
  - apply Forall_forall. intros l _ v tr -> Htr Hv.
    rewrite rstrip_app_space by assumption. now apply rstrip_trimmed.
  - eapply Forall_impl; [|exact Hall].
    intros l (_ & _ & _ & _ & c & rest & Hrest & Hc) value Hvalue.
    assert (Hkept : rstrip (w_rest l) = rstrip value).
    { rewrite Hvalue. now apply rstrip_app_space. }
    assert (Htrim : trimmed (rstrip value) = true).
    { rewrite <- Hkept, Hrest. now apply trimmed_rstrip. }
    destruct (rstrip_trailing value) as (tr & Hsplit & Htr).
    exists (rstrip value), tr.
    split; [exact Hsplit|]. split; [exact Htr|].
    split; [exact Htrim|]. split; [exact Hkept|]. split; split.
    + intros Heq. now rewrite Heq in Htrim.
    + intros Hv. now apply rstrip_trimmed.
    + intros Heq. rewrite Heq in Htrim.
      apply trimmed_inv in Htrim as (_ & _ & a & z & _ & _ & Ha & Hz).
      now exists a, z.
    + intros (a & z & -> & Hz). now apply rstrip_id.
Qed.

(** C10. With [allow_no_right] true, [pairwise_two_tables] raises
    nothing but [DuplicateTagError], [NoLeftValueError] and
    [MultipleRightValueError], on any two tables; so [main_move], which
    calls it that way, lets no [KeyError] out: each of the three is
    turned into a message and [sys.exit(EXIT_FAIL)]. *)
Theorem pairwise_default_never_no_right :
  (forall (Tag Val : Type)
          (tag_eq_dec : forall x y : Tag, {x = y} + {x <> y})
          (l r : table Tag Val),
      raises_only (fun e => is_DuplicateTag e || is_NoLeft e
                            || is_MultipleRight e)
        (pairwise_two_tables tag_eq_dec l r true)
      /\ forall t v,
           pairwise_two_tables tag_eq_dec l r true
           <> Raise (NoRightValueError t v))
  /\ forall (args : Args) (st : State W),
       raises_only (fun e => is_ValueError e || is_exit_fail e)
         (fst (main_move args st))
       /\ forall e, fst (main_move args st) <> Raise (KeyErr e).
Proof.
  split.
  - intros Tag Val tag_eq_dec l r.
    pose proof (pairwise_allow_raises tag_eq_dec l r) as H.
    split; [exact H|].
    intros t v Heq. rewrite Heq in H. discriminate.
  - intros args st.
    pose proof (main_move_result args st) as H.
    split; [exact H|].
    intros e Heq. rewrite Heq in H. discriminate.
Qed.

End DriverFacts.

(** ** The parser and the drivers on the in-memory file system *)

Lemma malformed_line_aborts_witness :
  malformed (lit "abc" ++ [nl])
  /\ exists got,
       got < 2
       /\ run_main (os := MemFS.mem_os) Copy (MemFS.default_args false)
            (MemFS.session [lit "t1 /a" ++ [nl]] [lit "abc" ++ [nl]])
          = mkOutcome 2
              (mkState
                 (MemFS.session [lit "t1 /a" ++ [nl]] [lit "abc" ++ [nl]])
                 [] [Traceback (ValueError got)]).
Proof.
  assert (Hbad : malformed (lit "abc" ++ [nl])).
  { unfold malformed. vm_compute. intros H. discriminate H. }
  split; [exact Hbad|].
  destruct (@malformed_line_aborts _ MemFS.mem_os Copy
              (MemFS.default_args false)
              (MemFS.session [lit "t1 /a" ++ [nl]] [lit "abc" ++ [nl]])
              [lit "t1 /a" ++ [nl]] [lit "abc" ++ [nl]])
    as (got & Hlt & _ & Hrun).
  - vm_compute. reflexivity.
  - right. split; [vm_compute; reflexivity|].
    exists (lit "abc" ++ [nl]). split; [now left | exact Hbad].
  - exists got. split; [exact Hlt | exact Hrun].
Defined.

(** A table file whose only line is a single word: the run ends with
    exit code 2 and a traceback, not with exit code 1 and a message
    naming the file and the line. *)
Lemma malformed_line_counterexample :
  malformed (lit "abc" ++ [nl])
  /\ run_main (os := MemFS.mem_os) Move (MemFS.default_args false)
       (MemFS.session [lit "abc" ++ [nl]] [lit "t1 /x" ++ [nl]])
     = mkOutcome 2
         (mkState (MemFS.session [lit "abc" ++ [nl]] [lit "t1 /x" ++ [nl]])
            [] [Traceback (ValueError 1)])
  /\ exit_code
       (run_main (os := MemFS.mem_os) Move (MemFS.default_args false)
          (MemFS.session [lit "abc" ++ [nl]] [lit "t1 /x" ++ [nl]]))
     <> EXIT_FAIL.
Proof.
  split; [|split].
  - unfold malformed. vm_compute. intros H. discriminate H.
  - vm_compute. reflexivity.
  - vm_compute. intros H. discriminate H.
Qed.

Lemma parse_well_written_lines_witness :
  Forall well_written
    [mkWritten (lit "t1") (lit " ") (lit "/a b" ++ [nl]);
     mkWritten (lit "t2") (lit "  ") (lit "/c")]
  /\ parse_lines [lit "t1 /a b" ++ [nl]; lit "t2  /c"]
     = Ok [(lit "t1", lit "/a b"); (lit "t2", lit "/c")].
Proof.
  assert (Hall : Forall well_written
                   [mkWritten (lit "t1") (lit " ") (lit "/a b" ++ [nl]);
                    mkWritten (lit "t2") (lit "  ") (lit "/c")]).
  { repeat constructor; try discriminate;
      eexists _, _; split; reflexivity. }
  split; [exact Hall|].
  exact (proj1 (@parse_well_written_lines _ MemFS.mem_os _ Hall)).
Defined.

(** A value written with a space at its end loses it. *)
Lemma parse_well_written_lines_counterexample :
  well_written (mkWritten (lit "t1") (lit " ") (lit "a " ++ [nl]))
  /\ parse_lines [lit "t1" ++ lit " " ++ lit "a " ++ [nl]]
     = Ok [(lit "t1", lit "a")]
  /\ parse_lines [lit "t1" ++ lit " " ++ lit "a "]
     = Ok [(lit "t1", lit "a")]
  /\ lit "a" <> lit "a ".
Proof.
  split; [|split; [|split]].
  - repeat split; try discriminate. eexists _, _. split; reflexivity.
  - vm_compute. reflexivity.
  - vm_compute. reflexivity.
  - vm_compute. intros H. discriminate H.
Qed.

(** * Further properties *)

(** ** When the reconciler succeeds, and what it then returns *)

Section ReconcilerMore.
Variables Tag Val : Type.
Variable tag_eq_dec : forall x y : Tag, {x = y} + {x <> y}.

Local Abbreviation values_of := (values_of (Val:=Val) tag_eq_dec).
Local Abbreviation occurrences := (occurrences (Val:=Val) tag_eq_dec).
Local Abbreviation grouped := (grouped (Val:=Val) tag_eq_dec).
Local Abbreviation confront_two_tables :=
  (confront_two_tables (Val:=Val) tag_eq_dec).
Local Abbreviation pairwise_two_tables :=
  (pairwise_two_tables (Val:=Val) tag_eq_dec).

Lemma within_or_orphan (l r : table Tag Val) :
  incl (tags r) (tags l) \/ exists e, In e r /\ ~ In (fst e) (tags l).
Proof.
  induction r as [|[t v] r IH].
  - left. intros a [].
  - destruct (in_dec tag_eq_dec t (tags l)) as [Hin|Hout].
    + destruct IH as [IH|(e & He & Hout)].
      * left. intros a [<-|Ha]; [assumption | now apply IH].
      * right. exists e. split; [now right | assumption].
    + right. exists (t, v). split; [now left | assumption].
Qed.

(** The grouping succeeds on no other tables than those without a
    repeated left tag and without an orphan right tag. *)
Lemma confront_raw_Ok_inv (l r : table Tag Val)
    (its : list (Tag * (Val * list Val))) :
  _confront_two_tables tag_eq_dec l r = Ok its ->
  NoDup (tags l) /\ incl (tags r) (tags l) /\ its = grouped l r.
Proof.
  intros Hok.
  destruct (NoDup_dec tag_eq_dec (tags l)) as [Hnd|Hdup].
  - destruct (within_or_orphan l r) as [Hincl|Horphan].
    + rewrite confront_raw_ok in Hok by assumption.
      injection Hok as <-. auto.
    + destruct (first_orphan tag_eq_dec l r Horphan)
        as (pre & t & rv & post & -> & Hout & Hpre).
      rewrite confront_raw_orphan in Hok by assumption. discriminate.
  - destruct (first_repeat tag_eq_dec l Hdup)
      as (p1 & t & v1 & p2 & v2 & post & -> & Hpre).
    rewrite confront_raw_dup in Hok by assumption. discriminate.
Qed.

Lemma pair_loop_Ok_inv (allow : bool) (its : list (Tag * (Val * list Val)))
    (acc pairs : list (Val * option Val)) :
  pair_loop allow its acc = Ok pairs ->
  pairs = acc ++ map (@pair_of _ _) its /\ Forall (passes allow) its.
Proof.
  revert acc. induction its as [|[t [lv rs]] its IH]; intros acc; simpl.
  - intros [= <-]. rewrite app_nil_r. split; [reflexivity | constructor].
  - destruct rs as [|r0 [|r1 rs]]; simpl.
    + destruct allow; [|discriminate].
      intros H. apply IH in H as [-> Hall]. rewrite <- app_assoc.
      split; [reflexivity|]. constructor; [|assumption].
      right. now split.
    + intros H. apply IH in H as [-> Hall]. rewrite <- app_assoc.
      split; [reflexivity|]. constructor; [|assumption]. now left.
    + discriminate.
Qed.

Lemma passes_grouped_inv (allow : bool) (l r : table Tag Val) :
  Forall (passes allow) (grouped l r) ->
  Forall (fun e => occurrences (fst e) r = 1
                   \/ (occurrences (fst e) r = 0 /\ allow = true)) l.
Proof.
  unfold grouped. rewrite Forall_map. apply Forall_impl.
  intros [t v]. unfold passes. simpl.
  rewrite <- length_values_of.
  intros [H|[H ->]]; [now left | right]. now rewrite H.
Qed.

(** What [pairwise_two_tables] needs to succeed, and what it returns. *)
Lemma pairwise_Ok_inv (l r : table Tag Val) (allow : bool)
    (pairs : list (Val * option Val)) :
  pairwise_two_tables l r allow = Ok pairs ->
  NoDup (tags l) /\ incl (tags r) (tags l)
  /\ Forall (fun e => occurrences (fst e) r = 1
                      \/ (occurrences (fst e) r = 0 /\ allow = true)) l
  /\ pairs = map (fun e => (snd e, hd_error (values_of (fst e) r))) l.
Proof.
  unfold pairwise_two_tables. intros Hok.
  destruct (_confront_two_tables tag_eq_dec l r) as [its|e] eqn:Hraw;
    simpl in Hok; [|discriminate].
  apply confront_raw_Ok_inv in Hraw as (Hnd & Hincl & ->).
  apply pair_loop_Ok_inv in Hok as [-> Hall].
  split; [assumption|]. split; [assumption|].
  split; [now apply passes_grouped_inv|].
  simpl. apply pair_of_grouped.
Qed.

Lemma confront_Ok_inv (l r : table Tag Val)
    (entries : list (Val * list Val)) :
  confront_two_tables l r = Ok entries ->
  NoDup (tags l) /\ incl (tags r) (tags l)
  /\ entries = map (fun e => (snd e, values_of (fst e) r)) l.
Proof.
  unfold confront_two_tables. intros Hok.
  destruct (_confront_two_tables tag_eq_dec l r) as [its|e] eqn:Hraw;
    simpl in Hok; [|discriminate].
  apply confront_raw_Ok_inv in Hraw as (Hnd & Hincl & ->).
  injection Hok as <-.
  split; [assumption|]. split; [assumption|].
  unfold grouped. now rewrite map_map.
Qed.

(** X1. [confront_two_tables] returns a result exactly when no tag comes
    twice in the left table and every right tag is a left tag. *)
Theorem confront_succeeds_iff (l r : table Tag Val) :
  (exists entries, confront_two_tables l r = Ok entries)
  <-> NoDup (tags l) /\ incl (tags r) (tags l).
Proof.
  split.
  - intros [entries Hok].
    apply confront_Ok_inv in Hok as (Hnd & Hincl & _). now split.
  - intros [Hnd Hincl]. eexists.
    unfold confront_two_tables.
    rewrite confront_raw_ok by assumption. reflexivity.
Qed.

(** X2. [pairwise_two_tables] returns a result exactly when no tag comes
    twice in the left table, every right tag is a left tag and every
    left tag has one right entry, or none if [allow_no_right] is
    true; the result is then the left values in left order, each with
    the right value of its tag or [None]. *)
Theorem pairwise_succeeds_iff (l r : table Tag Val) (allow : bool) :
  ((exists pairs, pairwise_two_tables l r allow = Ok pairs)
   <-> NoDup (tags l) /\ incl (tags r) (tags l)
       /\ forall t, In t (tags l) ->
            occurrences t r = 1 \/ (occurrences t r = 0 /\ allow = true))
  /\ forall pairs,
       pairwise_two_tables l r allow = Ok pairs ->
       pairs = map (fun e => (snd e, hd_error (values_of (fst e) r))) l.
Proof.
  split; [split|].
  - intros [pairs Hok].
    apply pairwise_Ok_inv in Hok as (Hnd & Hincl & Hall & _).
    split; [assumption|]. split; [assumption|].
    intros t Ht. apply in_map_iff in Ht as [e [<- He]].
    rewrite Forall_forall in Hall. now apply Hall.
  - intros (Hnd & Hincl & Hall). eexists.
    apply pairwise_all; try assumption.
    apply Forall_forall. intros e He. apply Hall.
    unfold tags. now apply in_map.
  - intros pairs Hok. now apply pairwise_Ok_inv in Hok.
Qed.

(** X3. On any two tables [confront_two_tables] raises nothing but
    [DuplicateTagError] and [NoLeftValueError]: a left tag without a
    right entry, or with several, is no error for it. *)
Theorem confront_raises_two_errors (l r : table Tag Val) :
  raises_only (fun e => is_DuplicateTag e || is_NoLeft e)
    (confront_two_tables l r)
  /\ (forall t v rs,
        confront_two_tables l r <> Raise (MultipleRightValueError t v rs))
  /\ (forall t v, confront_two_tables l r <> Raise (NoRightValueError t v)).
Proof.
  pose proof (confront_raises tag_eq_dec l r) as H.
  split; [exact H|]. split.
  - intros t v rs Heq. rewrite Heq in H. discriminate.
  - intros t v Heq. rewrite Heq in H. discriminate.
Qed.

(** X4. A result of [pairwise_two_tables] is the result of
    [confront_two_tables] on the same tables, with every list of right
    values, none longer than one, replaced by its only value or
    [None]. *)
Theorem pairwise_collapses_confront (l r : table Tag Val) (allow : bool)
    (pairs : list (Val * option Val)) :
  pairwise_two_tables l r allow = Ok pairs ->
  exists entries,
    confront_two_tables l r = Ok entries
    /\ pairs = map (fun e => (fst e, hd_error (snd e))) entries
    /\ Forall (fun e => length (snd e) <= 1) entries.
Proof.
  intros Hok.
  apply pairwise_Ok_inv in Hok as (Hnd & Hincl & Hall & ->).
  exists (map (fun e => (snd e, values_of (fst e) r)) l).
  split; [|split].
  - unfold confront_two_tables.
    rewrite confront_raw_ok by assumption. simpl.
    unfold grouped. now rewrite map_map.
  - now rewrite map_map.
  - apply Forall_map. eapply Forall_impl; [|exact Hall].
    intros e He. simpl. rewrite length_values_of.
    destruct He as [He|[He _]]; rewrite He; lia.
Qed.

Lemma concat_no_values (l : table Tag Val) :
  concat (map (fun e => values_of (fst e) []) l) = [].
Proof.
  induction l as [|e l IH]; simpl; [reflexivity | exact IH].
Qed.

Lemma split_at_tag (l : table Tag Val) (t : Tag) :
  NoDup (tags l) -> In t (tags l) ->
  exists pre lv post,
    l = pre ++ (t, lv) :: post
    /\ ~ In t (tags pre) /\ ~ In t (tags post).
Proof.
  intros Hnd Hin.
  apply in_map_iff in Hin as [[t' lv] [Heq Hin]]. simpl in Heq. subst t'.
  apply in_split in Hin as [pre [post ->]].
  exists pre, lv, post. split; [reflexivity|].
  unfold tags in Hnd. rewrite map_app in Hnd. simpl in Hnd.
  apply NoDup_remove_2 in Hnd.
  split; intros H; apply Hnd; apply in_app_iff; [now left | now right].
Qed.

Lemma values_of_skip (t : Tag) (v : Val) (r part : table Tag Val) :
  ~ In t (tags part) ->
  map (fun e => values_of (fst e) ((t, v) :: r)) part
  = map (fun e => values_of (fst e) r) part.
Proof.
  intros Hout. apply map_ext_in. intros [t' lv] Hin. simpl.
  apply values_of_cons_neq. intros ->. apply Hout.
  change t' with (fst (t', lv)). unfold tags. now apply in_map.
Qed.

(** Every right value lands in the list of exactly one left entry. *)
Lemma grouped_values_permutation (l r : table Tag Val) :
  NoDup (tags l) -> incl (tags r) (tags l) ->
  Permutation (concat (map (fun e => values_of (fst e) r) l)) (map snd r).
Proof.
  intros Hnd. induction r as [|[t v] r IH]; intros Hincl.
  - rewrite concat_no_values. constructor.
  - assert (Hincl' : incl (tags r) (tags l))
      by (intros a Ha; apply Hincl; now right).
    specialize (IH Hincl').
    destruct (@split_at_tag l t Hnd) as (pre & lv & post & -> & H1 & H2).
    { apply Hincl. now left. }
    rewrite map_app, concat_app in *. simpl in *.
    rewrite values_of_cons_eq.
    rewrite !values_of_skip by assumption.
    simpl.
    apply Permutation_sym, Permutation_cons_app, Permutation_sym.
    exact IH.
Qed.

(** X5. A result of [confront_two_tables] has one entry per left entry
    with the left values in left order, and its lists of right values,
    put end to end, hold the values of the right table, each right
    entry once: no right entry is lost or used twice. *)
Theorem confront_conserves_values (l r : table Tag Val)
    (entries : list (Val * list Val)) :
  confront_two_tables l r = Ok entries ->
  map fst entries = map snd l
  /\ length entries = length l
  /\ Permutation (concat (map snd entries)) (map snd r).
Proof.
  intros Hok. apply confront_Ok_inv in Hok as (Hnd & Hincl & ->).
  split; [|split].
  - now rewrite map_map.
  - apply length_map.
  - rewrite map_map. simpl. now apply grouped_values_permutation.
Qed.

Lemma values_of_unique (l : table Tag Val) (t : Tag) (v : Val) :
  NoDup (tags l) -> In (t, v) l -> values_of t l = [v].
Proof.
  intros Hnd Hin.
  destruct (@split_at_tag l t Hnd) as (pre & lv & post & Hl & H1 & H2).
  { change t with (fst (t, v)). unfold tags. now apply in_map. }
  assert (Hv : lv = v).
  { rewrite Hl in Hin. apply in_app_or in Hin as [Hin|[Hin|Hin]].
    - exfalso. apply H1. change t with (fst (t, v)). unfold tags.
      now apply in_map.
    - now injection Hin.
    - exfalso. apply H2. change t with (fst (t, v)). unfold tags.
      now apply in_map. }
  subst lv. rewrite Hl.
  change ((t, v) :: post) with ([(t, v)] ++ post).
  rewrite !values_of_app.
  rewrite (@values_of_absent _ _ tag_eq_dec _ _ H1),
    (@values_of_absent _ _ tag_eq_dec _ _ H2).
  now rewrite values_of_cons_eq.
Qed.

Lemma reconcile_self (l : table Tag Val) :
  NoDup (tags l) ->
  confront_two_tables l l = Ok (map (fun e => (snd e, [snd e])) l)
  /\ forall allow,
       pairwise_two_tables l l allow
       = Ok (map (fun e => (snd e, Some (snd e))) l).
Proof.
  intros Hnd. split.
  - unfold confront_two_tables.
    rewrite confront_raw_ok by (try assumption; apply incl_refl).
    simpl. unfold grouped. rewrite map_map. f_equal.
    apply map_ext_in. intros [t v] Hin. simpl.
    now rewrite (@values_of_unique l t v Hnd Hin).
  - intros allow. rewrite pairwise_all; try assumption.
    + f_equal. apply map_ext_in. intros [t v] Hin. simpl.
      now rewrite (@values_of_unique l t v Hnd Hin).
    + apply incl_refl.
    + apply Forall_forall. intros [t v] Hin. left. simpl.
      rewrite <- length_values_of.
      now rewrite (@values_of_unique l t v Hnd Hin).
Qed.

(** X6. A table without a repeated tag reconciled with itself, as when
    the new table was not edited: [confront_two_tables] gives each
    value with itself as its only right value, and
    [pairwise_two_tables] pairs each value with itself, whatever
    [allow_no_right] is. *)
Theorem reconcile_with_itself (l : table Tag Val) :
  NoDup (tags l) ->
  confront_two_tables l l = Ok (map (fun e => (snd e, [snd e])) l)
  /\ forall allow,
       pairwise_two_tables l l allow
       = Ok (map (fun e => (snd e, Some (snd e))) l).
Proof. apply reconcile_self. Qed.

Lemma occurrences_permutation (t : Tag) (r r' : table Tag Val) :
  Permutation r r' -> occurrences t r = occurrences t r'.
Proof.
  intros Hp. unfold occurrences, tags.
  apply (Permutation_count_occ tag_eq_dec). now apply Permutation_map.
Qed.

Lemma hd_values_permutation (t : Tag) (r r' : table Tag Val) :
  Permutation r r' -> occurrences t r <= 1 ->
  hd_error (values_of t r') = hd_error (values_of t r).
Proof.
  intros Hp Hle.
  pose proof (@occurrences_permutation t r r' Hp) as Hocc.
  pose proof (length_values_of tag_eq_dec t r) as H1.
  pose proof (length_values_of tag_eq_dec t r') as H2.
  rewrite <- Hocc in H2.
  destruct (values_of t r) as [|v [|? ?]] eqn:E; simpl in H1;
    destruct (values_of t r') as [|v' [|? ?]] eqn:E'; simpl in H2;
    try lia; [reflexivity|].
  simpl. f_equal.
  assert (Hin : In v' (values_of t r)).
  { apply (values_of_In tag_eq_dec).
    apply (Permutation_in _ (Permutation_sym Hp)).
    apply (values_of_In tag_eq_dec). rewrite E'. now left. }
  rewrite E in Hin. destruct Hin as [<-|[]]. reflexivity.
Qed.

(** X7. The order of the right table does not matter to a result of
    [pairwise_two_tables]: any rearrangement of the right entries gives
    the same pairs. *)
Theorem pairwise_right_order_irrelevant (l r r' : table Tag Val)
    (allow : bool) (pairs : list (Val * option Val)) :
  pairwise_two_tables l r allow = Ok pairs ->
  Permutation r r' ->
  pairwise_two_tables l r' allow = Ok pairs.
Proof.
  intros Hok Hp.
  apply pairwise_Ok_inv in Hok as (Hnd & Hincl & Hall & ->).
  rewrite pairwise_all; try assumption.
  - f_equal. apply map_ext_in. intros e He. f_equal.
    apply hd_values_permutation; [assumption|].
    rewrite Forall_forall in Hall.
    destruct (Hall e He) as [H|[H _]]; rewrite H; lia.
  - intros a Ha. apply Hincl. unfold tags in *.
    apply (Permutation_in _ (Permutation_sym (Permutation_map fst Hp))).
    exact Ha.
  - eapply Forall_impl; [|exact Hall]. intros e He.
    now rewrite <- (@occurrences_permutation (fst e) r r' Hp).
Qed.

(** X8. Forbidding a missing right value changes nothing but the
    tables it refuses: [pairwise_two_tables] gives pairs with
    [allow_no_right] false exactly when it gives the same pairs with
    [allow_no_right] true and none of them holds [None]. *)
Theorem pairwise_strict_iff_lenient_full (l r : table Tag Val)
    (pairs : list (Val * option Val)) :
  pairwise_two_tables l r false = Ok pairs
  <-> pairwise_two_tables l r true = Ok pairs
      /\ Forall (fun p => snd p <> None) pairs.
Proof.
  split.
  - intros Hok.
    apply pairwise_Ok_inv in Hok as (Hnd & Hincl & Hall & ->).
    assert (Hone : Forall (fun e => occurrences (fst e) r = 1) l).
    { eapply Forall_impl; [|exact Hall].
      intros e [H|[_ H]]; [assumption | discriminate]. }
    split.
    + apply pairwise_all; try assumption.
      eapply Forall_impl; [|exact Hone]. intros e He. now left.
    + apply Forall_map. eapply Forall_impl; [|exact Hone].
      intros e He. cbv beta in He. rewrite <- length_values_of in He.
      simpl. destruct (values_of (fst e) r); [discriminate | simpl; discriminate].
  - intros [Hok Hfull].
    apply pairwise_Ok_inv in Hok as (Hnd & Hincl & Hall & ->).
    apply pairwise_all; try assumption.
    rewrite Forall_map in Hfull.
    rewrite Forall_forall in *. intros e He. left.
    destruct (Hall e He) as [H|[H _]]; [assumption|].
    exfalso. apply (Hfull e He). simpl.
    rewrite <- length_values_of in H.
    apply length_zero_iff_nil in H. now rewrite H.
Qed.

(** X9. Against an empty right table, as when every line of the new
    table was deleted, a left table without a repeated tag gives: from
    [confront_two_tables] every left value with no right value; from
    [pairwise_two_tables] every left value with [None] when
    [allow_no_right] is true, and [NoRightValueError] for the first
    left entry when it is false. *)
Theorem empty_right_table (l : table Tag Val) :
  NoDup (tags l) ->
  confront_two_tables l [] = Ok (map (fun e => (snd e, [])) l)
  /\ pairwise_two_tables l [] true = Ok (map (fun e => (snd e, None)) l)
  /\ forall t v rest,
       l = (t, v) :: rest ->
       pairwise_two_tables l [] false = Raise (NoRightValueError t v).
Proof.
  intros Hnd.
  assert (Hincl : incl (tags (@nil (Tag * Val))) (tags l))
    by (intros a []).
  split; [|split].
  - unfold confront_two_tables.
    rewrite confront_raw_ok by assumption. simpl.
    unfold grouped. now rewrite map_map.
  - rewrite pairwise_all; try assumption; [reflexivity|].
    apply Forall_forall. intros e He. right. now split.
  - intros t v rest ->.
    apply (@pairwise_stops_no_right _ _ tag_eq_dec [] rest [] t v);
      try assumption; [constructor | reflexivity].
Qed.

Lemma pair_loop_Raise_inv (allow : bool)
    (its : list (Tag * (Val * list Val))) (acc : list (Val * option Val))
    (e : KeyError Tag Val) :
  pair_loop allow its acc = Raise e ->
  (exists t lv rs,
      e = MultipleRightValueError t lv rs
      /\ In (t, (lv, rs)) its /\ 2 <= length rs)
  \/ (exists t lv,
        e = NoRightValueError t lv
        /\ In (t, (lv, [])) its /\ allow = false).
Proof.
  revert acc. induction its as [|[t [lv rs]] its IH]; intros acc; simpl.
  - discriminate.
  - destruct rs as [|r0 [|r1 rs]]; simpl.
    + destruct allow.
      * intros H. destruct (IH _ H) as [(t' & lv' & rs' & -> & Hin & Hlen)
                                       |(t' & lv' & -> & Hin & Hf)].
        -- left. exists t', lv', rs'. auto.
        -- right. exists t', lv'. auto.
      * intros [= <-]. right. exists t, lv. auto.
    + intros H. destruct (IH _ H) as [(t' & lv' & rs' & -> & Hin & Hlen)
                                     |(t' & lv' & -> & Hin & Hf)].
      * left. exists t', lv', rs'. auto.
      * right. exists t', lv'. auto.
    + intros [= <-]. left. exists t, lv, (r0 :: r1 :: rs).
      split; [reflexivity|]. split; [now left | simpl; lia].
Qed.

Lemma In_grouped (l r : table Tag Val) (t : Tag) (lv : Val)
    (rs : list Val) :
  In (t, (lv, rs)) (grouped l r) -> In (t, lv) l /\ rs = values_of t r.
Proof.
  unfold grouped. intros H. apply in_map_iff in H as [[t' v'] [Heq Hin]].
  simpl in Heq. injection Heq as -> -> <-. now split.
Qed.

(** Every error of the two entry points is borne out by the tables. *)
Lemma confront_raw_Raise_inv (l r : table Tag Val) (e : KeyError Tag Val) :
  _confront_two_tables tag_eq_dec l r = Raise e ->
  (exists p1 t v1 p2 v2 post,
      e = DuplicateTagError t [v1; v2]
      /\ l = p1 ++ (t, v1) :: p2 ++ (t, v2) :: post)
  \/ (exists t rv,
        e = NoLeftValueError t rv
        /\ NoDup (tags l) /\ In (t, rv) r /\ ~ In t (tags l)).
Proof.
  intros Hraise.
  destruct (NoDup_dec tag_eq_dec (tags l)) as [Hnd|Hdup].
  - destruct (within_or_orphan l r) as [Hincl|Horphan].
    + rewrite confront_raw_ok in Hraise by assumption. discriminate.
    + destruct (first_orphan tag_eq_dec l r Horphan)
        as (pre & t & rv & post & -> & Hout & Hpre).
      rewrite confront_raw_orphan in Hraise by assumption.
      injection Hraise as <-. right. exists t, rv.
      split; [reflexivity|]. split; [assumption|].
      split; [apply in_elt | assumption].
  - destruct (first_repeat tag_eq_dec l Hdup)
      as (p1 & t & v1 & p2 & v2 & post & -> & Hpre).
    rewrite confront_raw_dup in Hraise by assumption.
    injection Hraise as <-. left. exists p1, t, v1, p2, v2, post. auto.
Qed.

(** X23. No error of [pairwise_two_tables] is raised without cause.
    [DuplicateTagError] names a tag and the values of two left entries
    that bear it; [NoLeftValueError] a right entry whose tag is in no
    left entry; [MultipleRightValueError] a left entry and all the right
    values of its tag, at least two; [NoRightValueError], raised only
    when [allow_no_right] is false, a left entry whose tag is in no
    right entry. *)
Theorem pairwise_errors_have_cause (l r : table Tag Val) (allow : bool)
    (e : KeyError Tag Val) :
  pairwise_two_tables l r allow = Raise e ->
  match e with
  | DuplicateTagError t vs =>
      exists p1 v1 p2 v2 post,
        vs = [v1; v2] /\ l = p1 ++ (t, v1) :: p2 ++ (t, v2) :: post
  | NoLeftValueError t rv => In (t, rv) r /\ ~ In t (tags l)
  | MultipleRightValueError t lv rs =>
      In (t, lv) l /\ rs = values_of t r /\ 2 <= occurrences t r
  | NoRightValueError t lv =>
      In (t, lv) l /\ occurrences t r = 0 /\ allow = false
  end.
Proof.
  unfold pairwise_two_tables. intros Hraise.
  destruct (_confront_two_tables tag_eq_dec l r) as [its|e'] eqn:Hraw;
    simpl in Hraise.
  - apply confront_raw_Ok_inv in Hraw as (Hnd & Hincl & ->).
    destruct (pair_loop_Raise_inv _ _ _ Hraise)
      as [(t & lv & rs & -> & Hin & Hlen)|(t & lv & -> & Hin & Hf)].
    + apply In_grouped in Hin as [Hin ->].
      split; [assumption|]. split; [reflexivity|].
      now rewrite <- length_values_of.
    + apply In_grouped in Hin as [Hin Hnil].
      split; [assumption|]. split; [|assumption].
      rewrite <- length_values_of. now rewrite <- Hnil.
  - injection Hraise as <-.
    destruct (confront_raw_Raise_inv _ _ Hraw)
      as [(p1 & t & v1 & p2 & v2 & post & -> & Hl)
         |(t & rv & -> & _ & Hin & Hout)].
    + exists p1, v1, p2, v2, post. auto.
    + auto.
Qed.

Lemma pairwise_multiple_long (l r : table Tag Val) (allow : bool)
    (t : Tag) (lv : Val) (rs : list Val) :
  pairwise_two_tables l r allow = Raise (MultipleRightValueError t lv rs) ->
  2 <= length rs.
Proof.
  unfold pairwise_two_tables. intros Hraise.
  destruct (_confront_two_tables tag_eq_dec l r) as [its|e'] eqn:Hraw;
    simpl in Hraise.
  - destruct (pair_loop_Raise_inv _ _ _ Hraise)
      as [(t' & lv' & rs' & [= -> -> ->] & _ & Hlen)|(t' & lv' & He & _)];
      [assumption | discriminate].
  - injection Hraise as ->.
    destruct (confront_raw_Raise_inv _ _ Hraw)
      as [(p1 & t' & v1 & p2 & v2 & post & He & _)|(t' & rv & He & _)];
      discriminate.
Qed.

End ReconcilerMore.

Lemma pairwise_collapses_confront_witness :
  exists entries,
    confront_two_tables string_dec Doctest.left3 Doctest.right_short
    = Ok entries
    /\ [("L1", Some "R1"); ("L2", None); ("L3", Some "R3")]%string
       = map (fun e => (fst e, hd_error (snd e))) entries
    /\ Forall (fun e => length (snd e) <= 1) entries.
Proof.
  apply (@pairwise_collapses_confront _ _ string_dec
           Doctest.left3 Doctest.right_short true).
  reflexivity.
Defined.

Lemma confront_conserves_values_witness :
  map fst [("L1", ["R1"; "R1-B"]); ("L2", []); ("L3", ["R3"])]%string
  = map snd Doctest.left3
  /\ Permutation
       (concat (map snd
                  [("L1", ["R1"; "R1-B"]); ("L2", []); ("L3", ["R3"])]%string))
       (map snd Doctest.right_fan).
Proof.
  destruct (@confront_conserves_values _ _ string_dec
              Doctest.left3 Doctest.right_fan
              [("L1", ["R1"; "R1-B"]); ("L2", []); ("L3", ["R3"])]%string)
    as (Hfst & _ & Hperm).
  - reflexivity.
  - split; [exact Hfst | exact Hperm].
Defined.

Lemma reconcile_with_itself_witness :
  NoDup (tags Doctest.left3)
  /\ confront_two_tables string_dec Doctest.left3 Doctest.left3
     = Ok [("L1", ["L1"]); ("L2", ["L2"]); ("L3", ["L3"])]%string
  /\ pairwise_two_tables string_dec Doctest.left3 Doctest.left3 false
     = Ok [("L1", Some "L1"); ("L2", Some "L2"); ("L3", Some "L3")]%string.
Proof.
  assert (Hnd : NoDup (tags Doctest.left3)) by distinct_tags.
  split; [exact Hnd|].
  destruct (@reconcile_with_itself _ _ string_dec Doctest.left3 Hnd)
    as [Hc Hp].
  split; [exact Hc | exact (Hp false)].
Defined.

Lemma pairwise_right_order_irrelevant_witness :
  Permutation Doctest.right_perm
    [("tag3", "R3"); ("tag1", "R1"); ("tag2", "R2")]%string
  /\ pairwise_two_tables string_dec Doctest.left3
       [("tag3", "R3"); ("tag1", "R1"); ("tag2", "R2")]%string true
     = Ok [("L1", Some "R1"); ("L2", Some "R2"); ("L3", Some "R3")]%string.
Proof.
  assert (Hp : Permutation Doctest.right_perm
                 [("tag3", "R3"); ("tag1", "R1"); ("tag2", "R2")]%string)
    by apply perm_swap.
  split; [exact Hp|].
  apply (@pairwise_right_order_irrelevant _ _ string_dec
           Doctest.left3 Doctest.right_perm _ true _ eq_refl Hp).
Defined.

Lemma empty_right_table_witness :
  NoDup (tags Doctest.left3)
  /\ pairwise_two_tables string_dec Doctest.left3 [] true
     = Ok [("L1", None); ("L2", None); ("L3", None)]%string
  /\ pairwise_two_tables string_dec Doctest.left3 [] false
     = Raise (NoRightValueError "tag1" "L1")%string.
Proof.
  assert (Hnd : NoDup (tags Doctest.left3)) by distinct_tags.
  split; [exact Hnd|].
  destruct (@empty_right_table _ _ string_dec Doctest.left3 Hnd)
    as (_ & Ht & Hf).
  split; [exact Ht | exact (Hf _ _ _ eq_refl)].
Defined.

(** ** What the parser accepts and yields *)

(** The line written for an entry parses back to the entry. *)
Lemma parse_table_line (tag path : pystr) :
  is_word tag = true -> trimmed path = true ->
  parse_line (table_line tag path) = Ok (tag, path).
Proof.
  intros Htag Hpath.
  apply is_word_inv in Htag as [Hne Hall].
  apply trimmed_inv in Hpath as (c & p' & a & z & Hp & Hc & Ha & Hz).
  apply parse_line_ok_fields.
  change (table_line tag path)
    with (line_text (mkWritten tag (lit " ") (path ++ [nl]))).
  rewrite fields_well_written.
  - simpl. f_equal. f_equal. rewrite Ha, <- app_assoc. simpl.
    now rewrite rstrip_keeps.
  - unfold well_written. simpl.
    split; [assumption|]. split; [assumption|].
    split; [discriminate|]. split; [reflexivity|].
    exists c, (p' ++ [nl]). split; [now rewrite Hp | assumption].
Qed.

(** The two fields of a line: a word and a trimmed string. *)
Lemma fields_two_clean (line tag path : pystr) :
  fields line = [tag; path] -> is_word tag = true /\ trimmed path = true.
Proof.
  unfold fields, split_None_1.
  destruct (strip line) as [|c s] eqn:Es; simpl; [discriminate|].
  pose proof (@strip_head line s c Es) as Hc. rewrite Hc.
  assert (Hn : nonspace c = true) by (unfold nonspace; now rewrite Hc).
  rewrite Hn.
  destruct (drop_while isspace (drop_while nonspace s)) as [|r0 r] eqn:Er;
    [discriminate|].
  intros [= <- <-]. split.
  - simpl. rewrite Hn. simpl. apply take_while_all.
  - pose proof (@drop_while_head isspace _ r r0 Er) as Hr0.
    destruct (@exists_last _ (r0 :: r)) as (a & z & Ha); [discriminate|].
    apply (@trimmed_intro (r0 :: r) r a r0 z); try assumption;
      [reflexivity|].
    apply (@strip_last line
             (c :: take_while nonspace s
                ++ take_while isspace (drop_while nonspace s) ++ a)).
    rewrite Es. simpl. f_equal.
    rewrite <- !app_assoc. rewrite <- Ha, <- Er.
    now rewrite <- !take_drop_while.
Qed.

Lemma parse_line_Ok_fields (line tag path : pystr) :
  parse_line line = Ok (tag, path) -> fields line = [tag; path].
Proof.
  intros H.
  destruct (parse_line_cases line)
    as [(t & p & Hf & Hp)|(_ & _ & Hp)]; rewrite Hp in H.
  - now injection H as <- <-.
  - discriminate.
Qed.

(** *** Lines read back from a text *)








(** X11. Whatever line the parser accepts, the tag it yields is not
    empty and holds no whitespace, the path it yields is not empty and
    neither starts nor ends with whitespace, and the entry written back
    as a table line parses to itself. *)
Theorem parse_line_yields_clean_entry (line tag path : pystr) :
  parse_line line = Ok (tag, path) ->
  is_word tag = true /\ trimmed path = true
  /\ parse_line (table_line tag path) = Ok (tag, path).
Proof.
  intros H. apply parse_line_Ok_fields in H.
  destruct (@fields_two_clean line tag path H) as [Htag Hpath].
  split; [assumption|]. split; [assumption|].
  now apply parse_table_line.
Qed.

Lemma fields_nil_iff (line : pystr) :
  fields line = [] <-> forallb isspace line = true.
Proof.
  rewrite <- strip_nil_iff. unfold fields, split_None_1.
  destruct (strip line) as [|c s] eqn:Es.
  - simpl. tauto.
  - pose proof (@strip_head line s c Es) as Hc. simpl. rewrite Hc.
    split; [|discriminate].
    destruct (drop_while isspace _); discriminate.
Qed.

Lemma fields_one_iff (line : pystr) :
  length (fields line) = 1 <-> is_word (strip line) = true.
Proof.
  unfold fields, split_None_1.
  destruct (strip line) as [|c s] eqn:Es.
  - simpl. split; discriminate.
  - pose proof (@strip_head line s c Es) as Hc.
    assert (Hn : nonspace c = true) by (unfold nonspace; now rewrite Hc).
    simpl drop_while at 1. rewrite Hc. simpl is_word.
    destruct (drop_while isspace (drop_while nonspace (c :: s)))
      as [|r0 r] eqn:Er.
    + split; [intros _|reflexivity].
      apply drop_while_all_nil in Er.
      destruct (drop_while nonspace (c :: s)) as [|d0 d] eqn:Ed.
      * now apply drop_while_all_nil in Ed.
      * exfalso.
        destruct (@exists_last _ (d0 :: d)) as (a & z & Ha); [discriminate|].
        assert (Hz : isspace z = true).
        { rewrite forallb_forall in Er. apply Er. rewrite Ha.
          apply in_app_iff. right. now left. }
        assert (Hz' : isspace z = false).
        { apply (@strip_last line (take_while nonspace (c :: s) ++ a)).
          rewrite Es, <- app_assoc, <- Ha, <- Ed.
          apply take_drop_while. }
        congruence.
    + split; [discriminate|]. intros Hall. exfalso.
      change (forallb nonspace (c :: s) = true) in Hall.
      apply drop_while_all_nil in Hall. rewrite Hall in Er. discriminate.
Qed.

(** X12. The two ways a line fails to unpack.  The unpacking gets no
    field, [ValueError 0], exactly on a line of whitespace only, the
    empty line among them; it gets one field, [ValueError 1], exactly
    on a line that, stripped, is one word without whitespace. *)
Theorem parse_line_too_few_fields (line : pystr) :
  (parse_line line = Raise (ValueError 0)
   <-> forallb isspace line = true)
  /\ (parse_line line = Raise (ValueError 1)
      <-> is_word (strip line) = true).
Proof.
  split.
  - rewrite <- fields_nil_iff. split.
    + intros H.
      destruct (parse_line_cases line)
        as [(t & p & _ & Hp)|(_ & _ & Hp)]; rewrite Hp in H;
        [discriminate|].
      injection H as H. now apply length_zero_iff_nil.
    + intros H. unfold parse_line. fold (fields line). now rewrite H.
  - rewrite <- fields_one_iff. split.
    + intros H.
      destruct (parse_line_cases line)
        as [(t & p & _ & Hp)|(_ & _ & Hp)]; rewrite Hp in H;
        [discriminate|].
      now injection H as H.
    + intros H. unfold parse_line. fold (fields line).
      destruct (fields line) as [|f [|g fs]]; try discriminate.
      reflexivity.
Qed.

(** X13. The parser is all or nothing: it returns entries exactly when
    every line unpacks, and then there is one entry per line, in the
    order of the lines. *)
Theorem parse_lines_Ok_iff (ls : list pystr)
    (entries : list (pystr * pystr)) :
  parse_lines ls = Ok entries
  <-> Forall2 (fun line e => parse_line line = Ok e) ls entries.
Proof.
  revert entries. induction ls as [|line ls IH]; intros entries; simpl.
  - split.
    + intros [= <-]. constructor.
    + intros H. inversion H. reflexivity.
  - destruct (parse_line line) as [e|x] eqn:E; simpl.
    + destruct (parse_lines ls) as [es|x] eqn:Es; simpl.
      * split.
        -- intros [= <-]. constructor; [assumption | now apply IH].
        -- intros H. inversion H as [|? e' ? es' He Hes]; subst.
           apply IH in Hes. congruence.
      * split; [discriminate|].
        intros H. inversion H as [|? e' ? es' He Hes]; subst.
        apply IH in Hes. congruence.
    + split; [discriminate|].
      intros H. inversion H as [|? e' ? es' He Hes]; subst.
      congruence.
Qed.

(** X14. The first line that does not unpack decides the error: when
    the lines before it unpack, the parse raises the [ValueError] of
    that line, whatever comes after it. *)
Theorem parse_lines_first_malformed (pre post : list pystr) (bad : pystr) :
  Forall (fun line => ~ malformed line) pre ->
  malformed bad ->
  parse_lines (pre ++ bad :: post)
  = Raise (ValueError (length (fields bad)))
  /\ length (fields bad) < 2.
Proof.
  intros Hpre Hbad.
  destruct (parse_line_cases bad)
    as [(t & p & Hf & _)|(_ & Hlt & Hraise)].
  { exfalso. apply Hbad. now rewrite Hf. }
  split; [|exact Hlt].
  induction Hpre as [|line pre Hline _ IH]; simpl.
  - now rewrite Hraise.
  - destruct (parse_line_cases line)
      as [(t & p & _ & ->)|(Hm & _)]; [|contradiction].
    simpl. now rewrite IH.
Qed.


Lemma parse_line_yields_clean_entry_witness :
  is_word (lit "t1") = true /\ trimmed (lit "/a  b") = true.
Proof.
  destruct (@parse_line_yields_clean_entry
              (lit "  t1   /a  b  " ++ [nl]) (lit "t1") (lit "/a  b"))
    as (Hw & Ht & _).
  - vm_compute. reflexivity.
  - split; [exact Hw | exact Ht].
Defined.

Lemma parse_lines_first_malformed_witness :
  parse_lines ([lit "t1 /a" ++ [nl]] ++ [nl] :: [lit "only" ++ [nl]])
  = Raise (ValueError 0).
Proof.
  apply (@parse_lines_first_malformed
           [lit "t1 /a" ++ [nl]] [lit "only" ++ [nl]] [nl]).
  - repeat constructor. unfold malformed. vm_compute. intros H. apply H.
    reflexivity.
  - unfold malformed. vm_compute. intros H. discriminate H.
Defined.

(** ** What a run of [move] or [copy] does and leaves *)

Section DriverMore.
Context {W : Type} {os : OS W}.

(** How the interpreter ends, from the way the subcommand ends. *)
Lemma run_main_of_command (c : command) (args : Args) (w : W)
    (r : result exc unit) (st : State W) :
  run_command c args (mkState w [] []) = (r, st) ->
  run_main c args w
  = match r with
    | Ok _ => mkOutcome EXIT_SUCCESS st
    | Raise (SystemExit code) => mkOutcome code st
    | Raise e =>
        mkOutcome EXIT_UNEXPECTED_FAIL
          (mkState (world st) (stdout st) (stderr st ++ [Traceback e]))
    end.
Proof.
  intros H. unfold run_main, main, try_except_Exception. rewrite H.
  destruct r as [u|e]; [reflexivity|].
  destruct e; reflexivity.
Qed.


Lemma capture_of_OSError (A : Type) (body : M W A) (st st' : State W)
    (msg : pystr) :
  body st = (Raise (OSError msg), st') ->
  capture_os_error body st
  = (Raise (SystemExit EXIT_FAIL),
     mkState (world st') (stdout st') (stderr st' ++ [ErrLine msg])).
Proof.
  intros H. unfold capture_os_error. now rewrite H.
Qed.


Lemma for_each_app (A : Type) (xs ys : list A) (body : A -> M W unit)
    (st : State W) :
  for_each (xs ++ ys) body st
  = (for_each xs body ;; for_each ys body) st.
Proof.
  revert st. induction xs as [|x xs IH]; intros st; simpl.
  - reflexivity.
  - unfold mbind. destruct (body x st) as [[u|e] st1]; [|reflexivity].
    rewrite IH. reflexivity.
Qed.

Lemma for_each_map (A B : Type) (q : B -> A) (ys : list B)
    (body : A -> M W unit) (st : State W) :
  for_each (map q ys) body st = for_each ys (fun y => body (q y)) st.
Proof.
  revert st. induction ys as [|y ys IH]; intros st; simpl.
  - reflexivity.
  - unfold mbind. destruct (body (q y) st) as [[u|e] st1]; [|reflexivity].
    apply IH.
Qed.

(** The two nested loops of [main_copy] are one loop over the pairs of
    a source and a destination. *)
Lemma for_each_nested (A B : Type) (h : A -> list B)
    (body : A -> B -> M W unit) (xs : list A) (st : State W) :
  for_each xs (fun x => for_each (h x) (body x)) st
  = for_each (flat_map (fun x => map (pair x) (h x)) xs)
      (fun p => body (fst p) (snd p)) st.
Proof.
  revert st. induction xs as [|x xs IH]; intros st; simpl.
  - reflexivity.
  - rewrite for_each_app. unfold mbind.
    rewrite for_each_map. simpl.
    destruct (for_each (h x) (fun y => body x y) st) as [[u|e] st1] eqn:E.
    + replace (for_each (h x) (body x) st) with (@Ok exc unit u, st1).
      apply IH.
    + now replace (for_each (h x) (body x) st)
        with (@Raise exc unit e, st1).
Qed.




(** *** Programs that leave the world alone *)

Lemma keeps_world_ret (A : Type) (a : A) : keeps_world (@ret W A a).
Proof. intros st. reflexivity. Qed.

Lemma keeps_world_raise (A : Type) (e : exc) : keeps_world (@raise W A e).
Proof. intros st. reflexivity. Qed.

Lemma keeps_world_print_stdout (msg : pystr) :
  keeps_world (@print_stdout W msg).
Proof. intros st. reflexivity. Qed.

Lemma keeps_world_bind (A B : Type) (m : M W A) (k : A -> M W B) :
  keeps_world m -> (forall a, keeps_world (k a)) -> keeps_world (mbind m k).
Proof.
  intros Hm Hk st. unfold mbind. specialize (Hm st).
  destruct (m st) as [[a|e] st1]; simpl in *; [|assumption].
  now rewrite Hk.
Qed.

Lemma keeps_world_exit (A : Type) (msg : pystr) :
  keeps_world (@print_error_and_exit W A msg).
Proof. intros st. reflexivity. Qed.

Lemma keeps_world_capture (A : Type) (body : M W A) :
  keeps_world body -> keeps_world (capture_os_error body).
Proof.
  intros Hb st. unfold capture_os_error. specialize (Hb st).
  destruct (body st) as [[a|e] st1]; simpl in *; [assumption|].
  now destruct e.
Qed.

Lemma keeps_world_for_each (A : Type) (xs : list A) (body : A -> M W unit) :
  (forall x, keeps_world (body x)) -> keeps_world (for_each xs body).
Proof.
  intros Hb. induction xs as [|x xs IH]; simpl.
  - apply keeps_world_ret.
  - apply keeps_world_bind; [apply Hb | intros _; exact IH].
Qed.

Lemma keeps_world_parse (d : DirStats) : keeps_world (parse_old_new_file d).
Proof.
  intros st. destruct (parse_tables_result d st) as [_ H]. now rewrite H.
Qed.

Lemma keeps_world_dry_command (c : command) (args : Args) :
  dry_run args = true -> keeps_world (run_command c args).
Proof.
  intros Hdry. destruct c; simpl; unfold main_move, main_copy; rewrite Hdry.
  - apply keeps_world_bind;
      [apply keeps_world_capture, keeps_world_parse | intros tables].
    apply keeps_world_bind.
    + destruct (pairwise_two_tables _ _ _ _) as [pairs|[]];
        first [apply keeps_world_ret | apply keeps_world_exit
              | apply keeps_world_raise].
    + intros pairs. apply keeps_world_for_each. intros pair.
      apply keeps_world_capture, keeps_world_bind;
        [apply keeps_world_print_stdout | intros _; apply keeps_world_ret].
  - apply keeps_world_bind;
      [apply keeps_world_capture, keeps_world_parse | intros tables].
    apply keeps_world_bind.
    + destruct (confront_two_tables _ _ _) as [pairs|[]];
        first [apply keeps_world_ret | apply keeps_world_exit
              | apply keeps_world_raise].
    + intros pairs. apply keeps_world_for_each. intros pair.
      apply keeps_world_for_each. intros dst.
      apply keeps_world_capture, keeps_world_bind;
        [apply keeps_world_print_stdout | intros _; apply keeps_world_ret].
Qed.

(** X15. A dry run of [move] or [copy] changes nothing: whatever the
    table files hold and however the run ends, the world after it is
    the world before it. *)
Theorem dry_run_keeps_world (c : command) (args : Args) (w : W) :
  dry_run args = true -> world (final (run_main c args w)) = w.
Proof.
  intros Hdry.
  pose proof (@keeps_world_dry_command c args Hdry (mkState w [] [])) as Hw.
  destruct (run_command c args (mkState w [] [])) as [r st] eqn:E.
  rewrite (@run_main_of_command c args w r st E). simpl in Hw.
  destruct r as [u|e]; [exact Hw|].
  destruct e; exact Hw.
Qed.

(** *** After the parse *)

Lemma main_move_reconciled (args : Args) (st : State W)
    (old new : table pystr pystr) (pairs : list (pystr * option pystr)) :
  parse_old_new_file (get_dir_stats (name args)) st = (Ok (old, new), st) ->
  pairwise_two_tables pystr_eq_dec old new true = Ok pairs ->
  main_move args st
  = for_each pairs
      (fun pair =>
         capture_os_error
           (print_stdout (move_message (fst pair) (snd pair)) ;;
            if dry_run args then ret tt
            else move_process (fst pair) (snd pair))) st.
Proof.
  intros Hparse Hpair. unfold main_move. cbv zeta. unfold mbind at 1 2.
  unfold capture_os_error at 1. rewrite Hparse. simpl.
  now rewrite Hpair.
Qed.

Lemma main_copy_reconciled (args : Args) (st : State W)
    (old new : table pystr pystr) (entries : list (pystr * list pystr)) :
  parse_old_new_file (get_dir_stats (name args)) st = (Ok (old, new), st) ->
  confront_two_tables pystr_eq_dec old new = Ok entries ->
  main_copy args st
  = for_each entries
      (fun pair =>
         for_each (snd pair)
           (fun new_path =>
              capture_os_error
                (print_stdout (copy_message (fst pair) new_path) ;;
                 if dry_run args then ret tt
                 else os_call (shutil_copyfile (fst pair) new_path)))) st.
Proof.
  intros Hparse Hconf. unfold main_copy. cbv zeta. unfold mbind at 1 2.
  unfold capture_os_error at 1. rewrite Hparse. simpl.
  now rewrite Hconf.
Qed.

Lemma main_move_refused (args : Args) (st : State W)
    (old new : table pystr pystr) (e : KeyError pystr pystr) :
  parse_old_new_file (get_dir_stats (name args)) st = (Ok (old, new), st) ->
  pairwise_two_tables pystr_eq_dec old new true = Raise e ->
  exists msg,
    main_move args st
    = (Raise (SystemExit EXIT_FAIL),
       mkState (world st) (stdout st) (stderr st ++ [ErrLine msg])).
Proof.
  intros Hparse Hpair. unfold main_move. cbv zeta. unfold mbind at 1 2.
  unfold capture_os_error at 1. rewrite Hparse. simpl.
  pose proof (pairwise_allow_raises pystr_eq_dec old new) as Hclass.
  rewrite Hpair in *. simpl in Hclass.
  destruct e; try discriminate; eexists; reflexivity.
Qed.

Lemma main_copy_refused (args : Args) (st : State W)
    (old new : table pystr pystr) (e : KeyError pystr pystr) :
  parse_old_new_file (get_dir_stats (name args)) st = (Ok (old, new), st) ->
  confront_two_tables pystr_eq_dec old new = Raise e ->
  exists msg,
    main_copy args st
    = (Raise (SystemExit EXIT_FAIL),
       mkState (world st) (stdout st) (stderr st ++ [ErrLine msg])).
Proof.
  intros Hparse Hconf. unfold main_copy. cbv zeta. unfold mbind at 1 2.
  unfold capture_os_error at 1. rewrite Hparse. simpl.
  pose proof (confront_raises pystr_eq_dec old new) as Hclass.
  rewrite Hconf in *. simpl in Hclass.
  destruct e; try discriminate; eexists; reflexivity.
Qed.

(** X16. When the two tables parse but do not reconcile, [move] and
    [copy] do nothing: the run prints one message on the standard
    error, nothing on the standard output, performs no file operation
    and exits with [EXIT_FAIL]. *)
Theorem reconciliation_error_aborts (args : Args) (w : W)
    (old new : table pystr pystr) :
  parse_old_new_file (get_dir_stats (name args)) (mkState w [] [])
  = (Ok (old, new), mkState w [] []) ->
  (forall e,
      pairwise_two_tables pystr_eq_dec old new true = Raise e ->
      exists msg,
        run_main Move args w
        = mkOutcome EXIT_FAIL (mkState w [] [ErrLine msg]))
  /\ (forall e,
        confront_two_tables pystr_eq_dec old new = Raise e ->
        exists msg,
          run_main Copy args w
          = mkOutcome EXIT_FAIL (mkState w [] [ErrLine msg])).
Proof.
  intros Hparse. split; intros e He.
  - destruct (@main_move_refused args _ old new e Hparse He) as [msg Hrun].
    exists msg. now rewrite (@run_main_of_command Move args w _ _ Hrun).
  - destruct (@main_copy_refused args _ old new e Hparse He) as [msg Hrun].
    exists msg. now rewrite (@run_main_of_command Copy args w _ _ Hrun).
Qed.

(** *** The plan and what is printed of it *)

Lemma map_flat_map (A B C : Type) (f : B -> C) (g : A -> list B)
    (l : list A) :
  map f (flat_map g l) = flat_map (fun x => map f (g x)) l.
Proof.
  induction l as [|x l IH]; simpl; [reflexivity|].
  now rewrite map_app, IH.
Qed.

Lemma copy_plan_flat (entries : list (pystr * list pystr)) :
  map (fun p : (pystr * list pystr) * pystr =>
         copy_message (fst (fst p)) (snd p))
    (flat_map (fun e => map (pair e) (snd e)) entries)
  = copy_plan entries.
Proof.
  unfold copy_plan. rewrite map_flat_map.
  induction entries as [|e entries IH]; simpl; [reflexivity|].
  rewrite IH. f_equal. now rewrite map_map.
Qed.



(** In a dry run no step can fail. *)
Lemma dry_loop (A : Type) (f : A -> pystr) (xs : list A) (st : State W) :
  for_each xs (fun x => capture_os_error (print_stdout (f x) ;; ret tt)) st
  = (Ok tt, mkState (world st) (stdout st ++ map f xs) (stderr st)).
Proof.
  revert st. induction xs as [|x xs IH]; intros [w out err]; simpl.
  - unfold ret. now rewrite app_nil_r.
  - unfold mbind at 1. unfold capture_os_error, mbind, print_stdout, ret.
    simpl. rewrite IH. simpl. now rewrite <- app_assoc.
Qed.

(** X17. A dry run on tables that reconcile prints the whole plan and
    nothing else: for [move] one line per pair, in the order of the old
    table; for [copy] one line per destination, sources in the order of
    the old table and the destinations of a source in the order of the
    new table.  The run exits with [EXIT_SUCCESS], the standard error
    empty and the world as it was. *)
Theorem dry_run_prints_plan (args : Args) (w : W)
    (old new : table pystr pystr) :
  dry_run args = true ->
  parse_old_new_file (get_dir_stats (name args)) (mkState w [] [])
  = (Ok (old, new), mkState w [] []) ->
  (forall pairs,
      pairwise_two_tables pystr_eq_dec old new true = Ok pairs ->
      run_main Move args w
      = mkOutcome EXIT_SUCCESS (mkState w (move_plan pairs) []))
  /\ (forall entries,
        confront_two_tables pystr_eq_dec old new = Ok entries ->
        run_main Copy args w
        = mkOutcome EXIT_SUCCESS (mkState w (copy_plan entries) [])).
Proof.
  intros Hdry Hparse. split.
  - intros pairs Hpair.
    rewrite (@run_main_of_command Move args w (Ok tt)
               (mkState w (move_plan pairs) [])); [reflexivity|].
    simpl. rewrite (@main_move_reconciled args _ old new pairs Hparse Hpair).
    rewrite Hdry.
    exact (@dry_loop _ (fun pair => move_message (fst pair) (snd pair))
             pairs (mkState w [] [])).
  - intros entries Hconf.
    rewrite (@run_main_of_command Copy args w (Ok tt)
               (mkState w (copy_plan entries) [])); [reflexivity|].
    simpl.
    rewrite (@main_copy_reconciled args _ old new entries Hparse Hconf).
    rewrite Hdry.
    etransitivity.
    { exact (@for_each_nested _ _ snd
               (fun pair new_path =>
                  capture_os_error
                    (print_stdout (copy_message (fst pair) new_path) ;;
                     ret tt))
               entries (mkState w [] [])). }
    etransitivity.
    { exact (@dry_loop _
               (fun p : (pystr * list pystr) * pystr =>
                  copy_message (fst (fst p)) (snd p))
               (flat_map (fun e => map (pair e) (snd e)) entries)
               (mkState w [] [])). }
    simpl. now rewrite copy_plan_flat.
Qed.

(** *** Runs that touch the files *)






(** *** Missing files, exit codes and messages *)

Lemma parse_lines_total (ls : list pystr) :
  Forall (fun line => ~ malformed line) ls ->
  exists entries, parse_lines ls = Ok entries.
Proof.
  induction 1 as [|line ls Hline _ [entries IH]]; simpl.
  - now exists [].
  - destruct (parse_line_cases line)
      as [(t & p & _ & ->)|(Hm & _)]; [|contradiction].
    simpl. rewrite IH. simpl. eauto.
Qed.

(** X19. A table file that does not open ends [move] and [copy] with
    the message of the operating system as the only output and
    [EXIT_FAIL], before anything is reconciled or done: the old table
    file first, and the new one when the old one opened and parsed. *)
Theorem missing_table_file (c : command) (args : Args) (w : W)
    (msg : pystr) (old_lines : list pystr) :
  open_lines (old_path (get_dir_stats (name args))) w = Raise msg
  \/ (open_lines (old_path (get_dir_stats (name args))) w = Ok old_lines
      /\ Forall (fun line => ~ malformed line) old_lines
      /\ open_lines (new_path (get_dir_stats (name args))) w = Raise msg) ->
  run_main c args w = mkOutcome EXIT_FAIL (mkState w [] [ErrLine msg]).
Proof.
  intros Hmissing.
  assert (Hparse : parse_old_new_file (get_dir_stats (name args))
                     (mkState w [] [])
                   = (Raise (OSError msg), mkState w [] [])).
  { unfold parse_old_new_file, mbind.
    destruct Hmissing as [Hold|(Hold & Hfine & Hnew)].
    - unfold _parse_old_new_file. cbn [world]. now rewrite Hold.
    - rewrite (@parse_file_lines _ _ (old_path _) (mkState w [] [])
                 old_lines Hold).
      destruct (parse_lines_total Hfine) as [entries ->].
      unfold _parse_old_new_file. cbn [world]. now rewrite Hnew. }
  pose proof (@capture_of_OSError _ _ _ _ msg Hparse) as Hcap.
  pose proof (@run_command_parse_raises _ _ c args _ _ _ Hcap) as Hrun.
  now rewrite (@run_main_of_command c args w _ _ Hrun).
Qed.





Lemma fold_left_append (A : Type) (h : A -> pystr) (xs : list A)
    (m : pystr) :
  fold_left (fun msg x => msg ++ h x) xs m = m ++ concat (map h xs).
Proof.
  revert m. induction xs as [|x xs IH]; intros m; simpl.
  - now rewrite app_nil_r.
  - now rewrite IH, <- app_assoc.
Qed.

Lemma format_paths_closed (text_path tag : pystr) (file_paths : list pystr) :
  format_paths_message text_path tag file_paths
  = [nl] ++ lit "In " ++ text_path
    ++ match file_paths with
       | [] => [nl] ++ lit "  (Not Found)"
       | _ => concat (map (fun p => [nl] ++ lit "  " ++ tag ++ lit " " ++ p)
                        file_paths)
       end.
Proof.
  unfold format_paths_message.
  destruct file_paths as [|p ps].
  - now rewrite <- !app_assoc.
  - rewrite (fold_left_append
               (fun p => [nl] ++ lit "  " ++ tag ++ lit " " ++ p)).
    now rewrite <- !app_assoc.
Qed.

(** X21. [format_paths_message] gives the line [In <file>] and then one
    line per path, in order, made of the tag and the path, or the line
    [(Not Found)] when there is no path; every line starts with a line
    break. *)
Theorem format_paths_message_lines (text_path tag : pystr)
    (file_paths : list pystr) :
  format_paths_message text_path tag file_paths
  = [nl] ++ lit "In " ++ text_path
    ++ match file_paths with
       | [] => [nl] ++ lit "  (Not Found)"
       | _ => concat (map (fun p => [nl] ++ lit "  " ++ tag ++ lit " " ++ p)
                        file_paths)
       end.
Proof. apply format_paths_closed. Qed.

Ltac refused_run Hparse He :=
  match goal with
  | |- run_main ?c ?args ?w = mkOutcome _ (mkState _ _ [ErrLine ?msg]) =>
      rewrite (@run_main_of_command c args w
                 (Raise (SystemExit EXIT_FAIL))
                 (mkState w [] [ErrLine msg])); [reflexivity|];
      simpl run_command; unfold main_move, main_copy; cbv zeta;
      unfold mbind at 1 2; unfold capture_os_error at 1;
      rewrite Hparse; cbn [fst snd]; rewrite He; reflexivity
  end.

(** X22. What the user reads when the tables do not reconcile.  A tag
    that comes twice in the old table is reported, by [move] and by
    [copy], with the old table file and the two lines in conflict; a
    tag of the new table that the old table does not have, with the
    old table file, [(Not Found)], the new table file and the line in
    question; and, by [move], a tag with several lines in the new
    table, with its line in the old table file and all its lines in
    the new one. *)
Theorem reconciliation_error_messages (c : command) (args : Args) (w : W)
    (old new : table pystr pystr) :
  parse_old_new_file (get_dir_stats (name args)) (mkState w [] [])
  = (Ok (old, new), mkState w [] []) ->
  (forall p1 t v1 p2 v2 post,
      old = p1 ++ (t, v1) :: p2 ++ (t, v2) :: post ->
      NoDup (tags (p1 ++ (t, v1) :: p2)) ->
      run_main c args w
      = mkOutcome EXIT_FAIL
          (mkState w []
             [ErrLine
                (lit "Multiple source paths with same tag found"
                 ++ [nl] ++ lit "In "
                 ++ old_path (get_dir_stats (name args))
                 ++ [nl] ++ lit "  " ++ t ++ lit " " ++ v1
                 ++ [nl] ++ lit "  " ++ t ++ lit " " ++ v2)]))
  /\ (forall pre t rv post,
        NoDup (tags old) ->
        new = pre ++ (t, rv) :: post ->
        incl (tags pre) (tags old) -> ~ In t (tags old) ->
        run_main c args w
        = mkOutcome EXIT_FAIL
            (mkState w []
               [ErrLine
                  (lit "No corresponding source path found"
                   ++ [nl] ++ lit "In "
                   ++ old_path (get_dir_stats (name args))
                   ++ [nl] ++ lit "  (Not Found)"
                   ++ [nl] ++ lit "In "
                   ++ new_path (get_dir_stats (name args))
                   ++ [nl] ++ lit "  " ++ t ++ lit " " ++ rv)]))
  /\ (forall t lv rs,
        c = Move ->
        pairwise_two_tables pystr_eq_dec old new true
        = Raise (MultipleRightValueError t lv rs) ->
        run_main c args w
        = mkOutcome EXIT_FAIL
            (mkState w []
               [ErrLine
                  (lit "Multiple corresponding destination paths found"
                   ++ [nl] ++ lit "In "
                   ++ old_path (get_dir_stats (name args))
                   ++ [nl] ++ lit "  " ++ t ++ lit " " ++ lv
                   ++ [nl] ++ lit "In "
                   ++ new_path (get_dir_stats (name args))
                   ++ concat (map (fun p => [nl] ++ lit "  " ++ t
                                            ++ lit " " ++ p) rs))])).
Proof.
  intros Hparse. split; [|split].
  - intros p1 t v1 p2 v2 post -> Hnd.
    replace (lit "Multiple source paths with same tag found"
             ++ [nl] ++ lit "In " ++ old_path (get_dir_stats (name args))
             ++ [nl] ++ lit "  " ++ t ++ lit " " ++ v1
             ++ [nl] ++ lit "  " ++ t ++ lit " " ++ v2)
      with (lit "Multiple source paths with same tag found"
            ++ format_paths_message
                 (old_path (get_dir_stats (name args))) t [v1; v2]).
    + destruct c.
      * pose proof (@pairwise_dup _ _ pystr_eq_dec true p1 p2 post new
                      t v1 v2 Hnd) as He.
        refused_run Hparse He.
      * assert (He : confront_two_tables pystr_eq_dec
                       (p1 ++ (t, v1) :: p2 ++ (t, v2) :: post) new
                     = Raise (DuplicateTagError t [v1; v2])).
        { unfold confront_two_tables. now rewrite confront_raw_dup. }
        refused_run Hparse He.
    + rewrite format_paths_closed. cbn [map concat].
      now rewrite app_nil_r, <- !app_assoc.
  - intros pre t rv post Hnd -> Hpre Hout.
    replace (lit "No corresponding source path found"
             ++ [nl] ++ lit "In " ++ old_path (get_dir_stats (name args))
             ++ [nl] ++ lit "  (Not Found)"
             ++ [nl] ++ lit "In " ++ new_path (get_dir_stats (name args))
             ++ [nl] ++ lit "  " ++ t ++ lit " " ++ rv)
      with (lit "No corresponding source path found"
            ++ format_paths_message
                 (old_path (get_dir_stats (name args))) t []
            ++ format_paths_message
                 (new_path (get_dir_stats (name args))) t [rv]).
    + destruct c.
      * pose proof (@pairwise_orphan _ _ pystr_eq_dec true old pre post
                      t rv Hnd Hpre Hout) as He.
        refused_run Hparse He.
      * assert (He : confront_two_tables pystr_eq_dec old
                       (pre ++ (t, rv) :: post)
                     = Raise (NoLeftValueError t rv)).
        { unfold confront_two_tables. now rewrite confront_raw_orphan. }
        refused_run Hparse He.
    + rewrite !format_paths_closed. cbn [map concat].
      now rewrite app_nil_r, <- !app_assoc.
  - intros t lv rs -> He.
    replace (lit "Multiple corresponding destination paths found"
             ++ [nl] ++ lit "In " ++ old_path (get_dir_stats (name args))
             ++ [nl] ++ lit "  " ++ t ++ lit " " ++ lv
             ++ [nl] ++ lit "In " ++ new_path (get_dir_stats (name args))
             ++ concat (map (fun p => [nl] ++ lit "  " ++ t
                                      ++ lit " " ++ p) rs))
      with (lit "Multiple corresponding destination paths found"
            ++ format_paths_message
                 (old_path (get_dir_stats (name args))) t [lv]
            ++ format_paths_message
                 (new_path (get_dir_stats (name args))) t rs).
    + refused_run Hparse He.
    + rewrite !format_paths_closed. cbn [map concat].
      rewrite app_nil_r, <- !app_assoc.
      destruct rs as [|r0 rs]; [|reflexivity].
      exfalso.
      pose proof (@pairwise_multiple_long _ _ pystr_eq_dec old new true
                    t lv [] He) as Hlen.
      simpl in Hlen. lia.
Qed.

End DriverMore.

(** ** The editor command *)

(** X24. [which_editor] never gives an empty command.  It gives
    [EDITOR] when that is set and not empty; otherwise [VISUAL] when
    that is set and not empty, so that an empty [EDITOR] counts as not
    set; otherwise [vi]. *)
Theorem which_editor_cases (getenv : pystr -> option pystr) :
  which_editor getenv <> []
  /\ (forall e,
        getenv (lit "EDITOR") = Some e -> e <> [] -> which_editor getenv = e)
  /\ (getenv (lit "EDITOR") = None \/ getenv (lit "EDITOR") = Some [] ->
      (forall v,
          getenv (lit "VISUAL") = Some v -> v <> [] ->
          which_editor getenv = v)
      /\ (getenv (lit "VISUAL") = None \/ getenv (lit "VISUAL") = Some [] ->
          which_editor getenv = lit "vi")).
Proof.
  unfold which_editor, py_or.
  destruct (getenv (lit "EDITOR")) as [[|c e]|] eqn:E;
    destruct (getenv (lit "VISUAL")) as [[|d v]|] eqn:V;
    (split; [discriminate|]); split;
    try (intros e' [= <-] Hne; congruence);
    try (intros e' Heq; discriminate);
    intros Hed; (split; [intros v' Hv Hne | intros Hvi]);
    try (destruct Hed as [Hed|Hed]; discriminate);
    try (destruct Hvi as [Hvi|Hvi]; discriminate);
    try (injection Hv as <-); try congruence; try reflexivity.
Qed.

(** ** The tag generator *)

Lemma next_random_tag_fresh (tags draws : list pystr) :
  match next_random_tag tags draws with
  | None => fresh_draws tags draws = []
  | Some (t, tags', rest) =>
      tags' = t :: tags
      /\ fresh_draws tags draws = t :: fresh_draws tags' rest
  end.
Proof.
  induction draws as [|d draws IH]; simpl; [reflexivity|].
  destruct (in_dec pystr_eq_dec d tags); [exact IH | now split].
Qed.

(** The draws the generator yields are distinct draws outside [tags]. *)
Lemma fresh_draws_distinct (tags draws : list pystr) :
  NoDup (fresh_draws tags draws)
  /\ forall t, In t (fresh_draws tags draws) -> In t draws /\ ~ In t tags.
Proof.
  revert tags. induction draws as [|d draws IH]; intros tags; simpl.
  - split; [constructor | intros t []].
  - destruct (in_dec pystr_eq_dec d tags) as [Hin|Hout].
    + destruct (IH tags) as [Hnd Hsub]. split; [assumption|].
      intros t Ht. destruct (Hsub t Ht). auto.
    + destruct (IH (d :: tags)) as [Hnd Hsub]. split.
      * constructor; [|assumption].
        intros Hd. destruct (Hsub d Hd) as [_ H]. apply H. now left.
      * intros t [<-|Ht]; [auto|].
        destruct (Hsub t Ht) as [H1 H2]. split; [now right|].
        intros H. apply H2. now right.
Qed.

(** Every draw is yielded or was there before. *)
Lemma fresh_draws_complete (tags draws : list pystr) (t : pystr) :
  In t draws -> In t tags \/ In t (fresh_draws tags draws).
Proof.
  revert tags. induction draws as [|d draws IH]; intros tags; simpl.
  - intros [].
  - intros [<-|Ht].
    + destruct (in_dec pystr_eq_dec d tags); [now left | right; now left].
    + destruct (in_dec pystr_eq_dec d tags).
      * now apply IH.
      * destruct (IH (d :: tags) Ht) as [[<-|H]|H].
        -- right. now left.
        -- now left.
        -- right. now right.
Qed.

Lemma zip_random_tags_spec (A : Type) (items : list A)
    (tags draws : list pystr) :
  zip_random_tags items tags draws
  = if length items <? length (fresh_draws tags draws)
    then Some (combine (firstn (length items) (fresh_draws tags draws))
                 items)
    else None.
Proof.
  revert tags draws. induction items as [|x items IH]; intros tags draws.
  - simpl. pose proof (next_random_tag_fresh tags draws) as H.
    destruct (next_random_tag tags draws) as [[[t tags'] rest]|].
    + destruct H as [_ ->]. reflexivity.
    + now rewrite H.
  - simpl zip_random_tags.
    pose proof (next_random_tag_fresh tags draws) as H.
    destruct (next_random_tag tags draws) as [[[t tags'] rest]|].
    + destruct H as [_ ->]. rewrite IH.
      change (length (x :: items) <? length (t :: fresh_draws tags' rest))
        with (length items <? length (fresh_draws tags' rest)).
      now destruct (length items <? length (fresh_draws tags' rest)).
    + now rewrite H.
Qed.

Lemma combine_firstn_fst (A : Type) (items : list A) (l : list pystr) :
  length items <= length l ->
  map fst (combine (firstn (length items) l) items)
  = firstn (length items) l
  /\ map snd (combine (firstn (length items) l) items) = items.
Proof.
  revert l. induction items as [|x items IH]; intros l Hlen; simpl.
  - now split.
  - destruct l as [|t l]; simpl in *; [lia|].
    destruct (IH l) as [H1 H2]; [lia|]. now rewrite H1, H2.
Qed.

Lemma NoDup_firstn_of (n : nat) (l : list pystr) :
  NoDup l -> NoDup (firstn n l).
Proof.
  intros H. rewrite <- (firstn_skipn n l) in H.
  now apply NoDup_app_remove_r in H.
Qed.

Lemma In_firstn_of (n : nat) (l : list pystr) (t : pystr) :
  In t (firstn n l) -> In t l.
Proof.
  intros H. rewrite <- (firstn_skipn n l). apply in_app_iff. now left.
Qed.

Lemma zip_random_tags_Some (A : Type) (items : list A)
    (draws : list pystr) (pairs : list (pystr * A)) :
  zip_random_tags items [] draws = Some pairs ->
  map snd pairs = items /\ NoDup (map fst pairs)
  /\ incl (map fst pairs) draws.
Proof.
  rewrite zip_random_tags_spec.
  destruct (length items <? length (fresh_draws [] draws)) eqn:E;
    [|discriminate].
  apply Nat.ltb_lt in E. intros [= <-].
  destruct (@combine_firstn_fst _ items (fresh_draws [] draws)) as [H1 H2];
    [lia|].
  destruct (fresh_draws_distinct [] draws) as [Hnd Hsub].
  rewrite H1, H2. split; [reflexivity|]. split.
  - now apply NoDup_firstn_of.
  - intros t Ht. apply In_firstn_of in Ht. now apply Hsub.
Qed.

(** X25. The tags the generator gives to the items are pairwise
    distinct, each is one of the strings drawn, and the items come out
    in their order, each with its tag. *)
Theorem random_tags_distinct (A : Type) (items : list A)
    (draws : list pystr) (pairs : list (pystr * A)) :
  zip_random_tags items [] draws = Some pairs ->
  map snd pairs = items
  /\ NoDup (map fst pairs)
  /\ incl (map fst pairs) draws.
Proof. apply zip_random_tags_Some. Qed.

(** X26. With no item [random_tagging] raises, at the logarithm of 0
    and before any draw.  Tagging n items, n at least 1, takes n + 1
    distinct draws: the [zip] asks the generator for a tag before it
    finds the items used up, so the tagging ends exactly when the draws
    hold more distinct strings than there are items, and the tags are
    then the first n distinct draws, given to the items in order. *)
Theorem random_tagging_needs_one_more (A : Type) (items : list A)
    (draws : list pystr) :
  NoDup (fresh_draws [] draws)
  /\ (forall t, In t (fresh_draws [] draws) <-> In t draws)
  /\ (items = [] -> random_tagging items draws = Raise MathDomainError)
  /\ (items <> [] ->
      ((exists pairs, random_tagging items draws = Ok (Some pairs))
       <-> length items < length (fresh_draws [] draws))
      /\ (random_tagging items draws = Ok None
          <-> length (fresh_draws [] draws) <= length items))
  /\ forall pairs,
       random_tagging items draws = Ok (Some pairs) ->
       map fst pairs = firstn (length items) (fresh_draws [] draws)
       /\ map snd pairs = items.
Proof.
  destruct (fresh_draws_distinct [] draws) as [Hnd Hsub].
  split; [assumption|]. split; [|split; [|split]].
  - intros t. split.
    + intros Ht. now apply Hsub.
    + intros Ht. destruct (fresh_draws_complete [] draws t Ht) as [[]|H].
      exact H.
  - intros ->. reflexivity.
  - intros Hne.
    assert (Hrt : random_tagging items draws
                  = Ok (zip_random_tags items [] draws)).
    { unfold random_tagging. destruct items; [congruence | reflexivity]. }
    rewrite Hrt, zip_random_tags_spec.
    destruct (length items <? length (fresh_draws [] draws)) eqn:E.
    + apply Nat.ltb_lt in E. split.
      * split; [intros _; exact E | eauto].
      * split; [discriminate | lia].
    + apply Nat.ltb_ge in E. split.
      * split; [intros [ps H]; discriminate | lia].
      * split; [intros _; exact E | reflexivity].
  - intros pairs Hrt.
    assert (Hzip : zip_random_tags items [] draws = Some pairs).
    { unfold random_tagging in Hrt. destruct items; [discriminate|].
      now injection Hrt. }
    rewrite zip_random_tags_spec in Hzip.
    destruct (length items <? length (fresh_draws [] draws)) eqn:E;
      [|discriminate].
    apply Nat.ltb_lt in E. injection Hzip as <-.
    apply combine_firstn_fst. lia.
Qed.

(** ** From a fresh session to the reconciler *)



(** ** The further properties on the sample session *)

Lemma pairwise_errors_have_cause_witness :
  In ("tag1", "L1")%string Doctest.left3
  /\ ["R1"; "R1-B"]%string = values_of string_dec "tag1"%string
                               Doctest.right_multi
  /\ 2 <= occurrences string_dec "tag1"%string Doctest.right_multi.
Proof.
  apply (@pairwise_errors_have_cause _ _ string_dec
           Doctest.left3 Doctest.right_multi true
           (MultipleRightValueError "tag1" "L1" ["R1"; "R1-B"])%string).
  reflexivity.
Defined.

Lemma dry_run_keeps_world_witness :
  world (final (run_main (os := MemFS.mem_os) Move
                  (MemFS.default_args true) Sample.world_with_files))
  = Sample.world_with_files.
Proof.
  apply (@dry_run_keeps_world _ MemFS.mem_os Move
           (MemFS.default_args true) Sample.world_with_files).
  reflexivity.
Defined.

Lemma reconciliation_error_aborts_witness :
  exists msg,
    run_main (os := MemFS.mem_os) Copy (MemFS.default_args false)
      Sample.world_orphan
    = mkOutcome EXIT_FAIL (mkState Sample.world_orphan [] [ErrLine msg]).
Proof.
  destruct (@reconciliation_error_aborts _ MemFS.mem_os
              (MemFS.default_args false) Sample.world_orphan
              Sample.old_table [(lit "tX", lit "/c")]) as [_ Hcopy].
  - vm_compute. reflexivity.
  - apply (Hcopy (NoLeftValueError (lit "tX") (lit "/c"))).
    vm_compute. reflexivity.
Defined.

Lemma dry_run_prints_plan_witness :
  run_main (os := MemFS.mem_os) Move (MemFS.default_args true) Sample.world
  = mkOutcome EXIT_SUCCESS
      (mkState Sample.world
         [lit "Renamed /a to /c"; lit "Delete /b"] []).
Proof.
  destruct (@dry_run_prints_plan _ MemFS.mem_os
              (MemFS.default_args true) Sample.world
              Sample.old_table Sample.new_table) as [Hmove _].
  - reflexivity.
  - vm_compute. reflexivity.
  - apply (Hmove [(lit "/a", Some (lit "/c")); (lit "/b", None)]).
    vm_compute. reflexivity.
Defined.



Lemma missing_table_file_witness :
  run_main (os := MemFS.mem_os) Move (MemFS.default_args false) []
  = mkOutcome EXIT_FAIL
      (mkState []
         [] [ErrLine (MemFS.no_such_file
                        (lit "/tmp/vrename/default/old.txt"))]).
Proof.
  apply (@missing_table_file _ MemFS.mem_os Move
           (MemFS.default_args false) []
           (MemFS.no_such_file (lit "/tmp/vrename/default/old.txt")) []).
  left. vm_compute. reflexivity.
Defined.

Lemma reconciliation_error_messages_witness :
  run_main (os := MemFS.mem_os) Move (MemFS.default_args false)
    Sample.world_twice
  = mkOutcome EXIT_FAIL
      (mkState Sample.world_twice []
         [ErrLine
            (lit "Multiple source paths with same tag found"
             ++ [nl] ++ lit "In /tmp/vrename/default/old.txt"
             ++ [nl] ++ lit "  t1 /a"
             ++ [nl] ++ lit "  t1 /b")]).
Proof.
  destruct (@reconciliation_error_messages _ MemFS.mem_os Move
              (MemFS.default_args false) Sample.world_twice
              [(lit "t1", lit "/a"); (lit "t1", lit "/b")]
              Sample.new_table) as [Hdup _].
  - vm_compute. reflexivity.
  - apply (Hdup [] (lit "t1") (lit "/a") [] (lit "/b") []).
    + reflexivity.
    + repeat constructor. intros [].
Defined.

Lemma random_tags_distinct_witness :
  map snd [(lit "aaaaaa", lit "/x"); (lit "bbbbbb", lit "/y")]
  = [lit "/x"; lit "/y"]
  /\ NoDup (map fst [(lit "aaaaaa", lit "/x"); (lit "bbbbbb", lit "/y")]).
Proof.
  destruct (@random_tags_distinct _ [lit "/x"; lit "/y"]
              [lit "aaaaaa"; lit "aaaaaa"; lit "bbbbbb"; lit "cccccc"]
              [(lit "aaaaaa", lit "/x"); (lit "bbbbbb", lit "/y")])
    as (Hsnd & Hnd & _).
  - vm_compute. reflexivity.
  - split; [exact Hsnd | exact Hnd].
Defined.

